(** * Code-Grapher: a shallow embedding of [grapher.py]

    The script parses its command line into module-level globals, runs
    [execute] once per value of [range(lower_bound, upper_bound, step)] on a
    thread pool, each call driving one radare2 session through [r2pipe] and
    appending one point to the shared list [points], and finally prints and
    plots the points.

    Python text is modelled as [string] (8-bit characters; the command line
    is taken to be ASCII), Python integers as [Z], raised exceptions as the
    left injection of a sum type. *)

From Stdlib Require Import ZArith List String Ascii Bool Lia.
From Stdlib Require Import Permutation Sorted.
From Stdlib Require DecimalString HexadecimalString DecimalPos HexadecimalPos.
Import ListNotations.

Open Scope string_scope.
Open Scope list_scope.
Open Scope Z_scope.

(** Python's [+] on text. *)
Infix "+++" := String.append (right associativity, at level 60).

(** ** Exceptions *)

Inductive exn : Type :=
| ValueError
| IndexError
| TypeError
| DebuggerError.

Definition result (A : Type) : Type := (exn + A)%type.

Definition ok {A : Type} (a : A) : result A := inr a.
Definition raise {A : Type} (e : exn) : result A := inl e.

Definition bind {A B : Type} (m : result A) (k : A -> result B) : result B :=
  match m with
  | inl e => inl e
  | inr a => k a
  end.

Notation "x <- m ;; k" := (bind m (fun x => k))
  (at level 61, m at next level, right associativity).

(** ** The Python string operations the script uses *)

Module PyStr.

(** [s.startswith(p)] *)
Definition startswith (s p : string) : bool := String.prefix p s.

(** Index normalisation of slices: negative indices count from the end and
    everything is clipped to [0, len]. *)
Definition clip (len i : Z) : Z :=
  if i <? 0 then Z.max 0 (len + i) else Z.min len i.

(** [s[start:stop]], [None] standing for an omitted bound. *)
Definition slice (s : string) (start stop : option Z) : string :=
  let len := Z.of_nat (String.length s) in
  let a := match start with None => 0 | Some i => clip len i end in
  let b := match stop with None => len | Some j => clip len j end in
  String.substring (Z.to_nat a) (Z.to_nat (b - a)) s.

(** [s[i]]: a negative index counts from the end; out of range raises. *)
Definition item (s : string) (i : Z) : result ascii :=
  let len := Z.of_nat (String.length s) in
  let j := if i <? 0 then len + i else i in
  if (j <? 0) || (len <=? j) then raise IndexError
  else match String.get (Z.to_nat j) s with
       | Some c => ok c
       | None => raise IndexError
       end.

(** [needle in s] *)
Definition contains (needle s : string) : bool :=
  match String.index 0 needle s with
  | Some _ => true
  | None => false
  end.

(** [s.split(sep)] for the one-character separators the script uses. *)
Definition split_cons (sep c : ascii) (rest : list string) : list string :=
  if Ascii.eqb c sep then "" :: rest
  else match rest with
       | [] => [String c ""]
       | w :: ws => String c w :: ws
       end.

Fixpoint split (sep : ascii) (s : string) : list string :=
  match s with
  | "" => [""]
  | String c r => split_cons sep c (split sep r)
  end.

(** [l[i]] on a list, for the non-negative indices the script uses. *)
Definition list_item {A : Type} (l : list A) (i : nat) : result A :=
  match nth_error l i with
  | Some a => ok a
  | None => raise IndexError
  end.

(** White space as [str.strip()] sees it on ASCII text. *)
Definition isspace (c : ascii) : bool :=
  let n := nat_of_ascii c in
  ((9 <=? n) && (n <=? 13) || (28 <=? n) && (n <=? 32))%nat.

(** White space as [int()] skips it around an ASCII numeral: tab, line
    feed, vertical tab, form feed, carriage return and space only. *)
Definition int_space (c : ascii) : bool :=
  let n := nat_of_ascii c in
  ((9 <=? n) && (n <=? 13) || (n =? 32))%nat.

Fixpoint lstrip_by (sp : ascii -> bool) (s : string) : string :=
  match s with
  | "" => ""
  | String c r => if sp c then lstrip_by sp r else s
  end.

Fixpoint rstrip_by (sp : ascii -> bool) (s : string) : string :=
  match s with
  | "" => ""
  | String c r =>
      match rstrip_by sp r with
      | "" => if sp c then "" else String c ""
      | r' => String c r'
      end
  end.

Definition lstrip (s : string) : string := lstrip_by isspace s.

Definition rstrip (s : string) : string := rstrip_by isspace s.

(** [s.strip()] *)
Definition strip (s : string) : string := rstrip (lstrip s).

(** The text [int()] reads once the white space around it is skipped. *)
Definition int_trim (s : string) : string :=
  rstrip_by int_space (lstrip_by int_space s).

(** Value of a digit character in bases up to 36. *)
Definition digit_value (c : ascii) : option Z :=
  let n := Z.of_nat (nat_of_ascii c) in
  if (48 <=? n) && (n <=? 57) then Some (n - 48)
  else if (97 <=? n) && (n <=? 122) then Some (n - 87)
  else if (65 <=? n) && (n <=? 90) then Some (n - 55)
  else None.

Definition underscore : ascii := "_"%char.

(** The digit loop of [int()]: single underscores may separate digits, a
    doubled or trailing underscore is an error. *)
Fixpoint digits_from (base acc : Z) (prev_us : bool) (s : string) : option Z :=
  match s with
  | "" => if prev_us then None else Some acc
  | String c r =>
      if Ascii.eqb c underscore then
        if prev_us then None else digits_from base acc true r
      else
        match digit_value c with
        | Some d => if d <? base then digits_from base (acc * base + d) false r
                    else None
        | None => None
        end
  end.

Definition digits (base : Z) (s : string) : option Z :=
  match s with
  | "" => None
  | String c _ => if Ascii.eqb c underscore then None
                  else digits_from base 0 false s
  end.

(** The optional [0x] / [0X] prefix of base 16, after which one underscore
    is allowed. *)
Definition skip_hex_prefix (s : string) : string :=
  match s with
  | String "0" (String x r) =>
      if Ascii.eqb x "x" || Ascii.eqb x "X" then
        match r with
        | String u r' => if Ascii.eqb u underscore then r' else r
        | "" => r
        end
      else s
  | _ => s
  end.

(** [int(s, base)] for base 10 and base 16 (the interpreter's optional
    limit on the number of digits is not modelled). *)
Definition int (base : Z) (s : string) : result Z :=
  let s1 := int_trim s in
  let '(neg, s2) :=
    match s1 with
    | String "+" r => (false, r)
    | String "-" r => (true, r)
    | _ => (false, s1)
    end in
  let s3 := if base =? 16 then skip_hex_prefix s2 else s2 in
  match digits base s3 with
  | Some n => ok (if neg then - n else n)
  | None => raise ValueError
  end.

(** [int(x)] where [x] is text or [None]: [None] is not a numeral. *)
Definition int_of (base : Z) (x : option string) : result Z :=
  match x with
  | Some s => int base s
  | None => raise TypeError
  end.

(** Text built by [+] around [x], which is text or [None]: adding [None]
    to text raises. *)
Definition around (x : option string) (k : string -> string)
  : result string :=
  match x with
  | Some s => ok (k s)
  | None => raise TypeError
  end.

(** [x != ''] where [x] is text or [None]. *)
Definition differs_from_empty (x : option string) : bool :=
  match x with
  | Some s => negb (String.eqb s "")
  | None => true
  end.

(** [str(v)] *)
Definition str (v : Z) : string :=
  DecimalString.NilZero.string_of_int (Z.to_int v).

(** [hex(v)]: a sign, then [0x], then lower-case digits. *)
Definition hex (v : Z) : string :=
  let body := HexadecimalString.NilZero.string_of_uint
                (N.to_hex_uint (Z.to_N (Z.abs v))) in
  if v <? 0 then "-0x" +++ body else "0x" +++ body.

End PyStr.

(** ** Command line and module-level globals (lines 28-59) *)

(** What [parser.parse_args()] returns.  The positional arguments are text
    and the three [store_const] flags are booleans.  The five options
    declared with [nargs='?'] are text, their default when the option is
    absent, or [None] when the option is given without a value. *)
Record Args : Type := {
  arg_filename : string;
  arg_start : string;
  arg_stop : string;
  arg_input : string;
  arg_output : string;
  arg_range : string;
  arg_threads : option string;
  arg_input_file : option string;
  arg_input_length : option string;
  arg_output_length : option string;
  arg_commands : option string;
  arg_x_is_hex : bool;
  arg_y_is_hex : bool;
  arg_jump : bool
}.

(** The globals [execute] and the reporting code read. *)
Record Globals : Type := {
  filename : string;
  start : string;
  stop : string;
  bruteforce : string;
  bruteforceIsMem : bool;
  output : string;
  outputIsMem : bool;
  lower_bound : Z;
  upper_bound : Z;
  step : Z;
  threads : Z;
  input_file : option string;
  input_length : option string;
  output_length : option string;
  commands : option string;
  x_is_hex : bool;
  y_is_hex : bool;
  jump : bool
}.

(** Lines 32-36 and 37-41: the flag and the rewritten text of one
    descriptor.  [and] evaluates [s[-1]] only when the prefix test holds. *)
Definition parse_descriptor (s : string) : result (bool * string) :=
  if PyStr.startswith s "m[" then
    c <- PyStr.item s (-1) ;;
    if Ascii.eqb c "]" then ok (true, PyStr.slice s (Some 2) (Some (-1)))
    else ok (false, s)
  else ok (false, s).

(** The tagged reading of the flag and text. *)
Inductive Location : Type :=
| Register (name : string)
| Memory (expression : string).

Definition location_of (d : bool * string) : Location :=
  if fst d then Memory (snd d) else Register (snd d).

Definition parse_location (s : string) : result Location :=
  d <- parse_descriptor s ;; ok (location_of d).

(** Lines 42-51: [lower_bound], [upper_bound] and [step]. *)
Definition parse_range (r : string) : result (Z * Z * Z) :=
  let valueRange := PyStr.split "," r in
  v0 <- PyStr.list_item valueRange 0 ;;
  lb_text <- PyStr.list_item (PyStr.split "[" v0) 1 ;;
  lb <- PyStr.int 10 lb_text ;;
  ub_text <- PyStr.list_item valueRange 1 ;;
  ub <- (if PyStr.contains "]" ub_text
         then PyStr.int 10 (PyStr.slice ub_text None (Some (-1)))
         else PyStr.int 10 ub_text) ;;
  st <- (if Nat.eqb (List.length valueRange) 3
         then v2 <- PyStr.list_item valueRange 2 ;;
              PyStr.int 10 (PyStr.slice v2 None (Some (-1)))
         else ok 1) ;;
  ok (lb, ub, st).

(** Lines 28-59 as a whole. *)
Definition parse_args (a : Args) : result Globals :=
  inp <- parse_descriptor (arg_input a) ;;
  out <- parse_descriptor (arg_output a) ;;
  rng <- parse_range (arg_range a) ;;
  thr <- PyStr.int_of 10 (arg_threads a) ;;
  let '(lb, ub, st) := rng in
  ok {| filename := arg_filename a;
        start := arg_start a;
        stop := arg_stop a;
        bruteforce := snd inp;
        bruteforceIsMem := fst inp;
        output := snd out;
        outputIsMem := fst out;
        lower_bound := lb;
        upper_bound := ub;
        step := st;
        threads := thr;
        input_file := arg_input_file a;
        input_length := arg_input_length a;
        output_length := arg_output_length a;
        commands := arg_commands a;
        x_is_hex := arg_x_is_hex a;
        y_is_hex := arg_y_is_hex a;
        jump := arg_jump a |}.

(** ** The builtin [range] (line 107) *)

(** Number of elements, as the interpreter computes it. *)
Definition range_len (lo hi st : Z) : Z :=
  if 0 <? st then
    if lo <? hi then (hi - lo - 1) / st + 1 else 0
  else
    if hi <? lo then (lo - hi - 1) / (- st) + 1 else 0.

(** [list(range(lo, hi, st))]; a zero step raises [ValueError]. *)
Definition range (lo hi st : Z) : result (list Z) :=
  if st =? 0 then raise ValueError
  else ok (map (fun i => lo + Z.of_nat i * st)
               (seq 0 (Z.to_nat (range_len lo hi st)))).

(** The values swept for a textual range. *)
Definition expand_range (r : string) : result (list Z) :=
  rng <- parse_range r ;;
  let '(lb, ub, st) := rng in
  range lb ub st.

(** Rounded-up quotient, for a positive divisor. *)
Definition ceil_div (a b : Z) : Z := - ((- a) / b).

(** ** The debugger seen through [r2pipe] *)

(** What a call does to the outside world: [r2pipe.open], [r.cmd] and
    [r.quit] are the three operations of a session handle. *)
Inductive event : Type :=
| Open (file : string) (flags : list string)
| Cmd (c : string)
| Quit.

(** A deterministic debugger: whether a target launches, and the answer to
    the latest command given every command sent on the session so far
    (oldest first, the latest one last).  An answer may be an exception.
    [refusal] is what [r.cmd] raises when it is handed [None] instead of
    text: that is decided inside [r2pipe], which is not part of the
    script. *)
Record debugger : Type := {
  launch : string -> bool;
  reply : list string -> result string;
  refusal : exn
}.

Definition sent (t : list event) : list string :=
  flat_map (fun e => match e with Cmd c => [c] | _ => [] end) t.

(** Code running against one session: it extends the trace of events and
    either returns or raises; the trace survives a raise. *)
Definition Session (A : Type) : Type := list event -> result A * list event.

Definition ret {A : Type} (a : A) : Session A := fun t => (ok a, t).

Definition lift {A : Type} (r : result A) : Session A := fun t => (r, t).

Definition sbind {A B : Type} (m : Session A) (k : A -> Session B)
  : Session B :=
  fun t => match m t with
           | (inl e, t') => (inl e, t')
           | (inr a, t') => k a t'
           end.

Notation "x <~ m ;; k" := (sbind m (fun x => k))
  (at level 61, m at next level, right associativity).

(** [r2pipe.open(file, flags=...)] *)
Definition r2_open (d : debugger) (file : string) (flags : list string)
  : Session unit :=
  fun t => (if launch d file then ok tt else raise DebuggerError,
            t ++ [Open file flags]).

(** [r.cmd(c)] *)
Definition cmd (d : debugger) (c : string) : Session string :=
  fun t => let t' := t ++ [Cmd c] in (reply d (sent t'), t').

(** [r.cmd(x)] where [x] is text or [None]. *)
Definition cmd_value (d : debugger) (x : option string) : Session string :=
  match x with
  | Some c => cmd d c
  | None => lift (raise (refusal d))
  end.

(** ** [execute] (lines 64-103) *)

(** Lines 67-100: the session of one call, returning [result]. *)
Definition execute_session (g : Globals) (d : debugger) (value : Z)
  : Session Z :=
  _ <~ r2_open d (filename g) ["d"; "A"] ;;
  _ <~ (if PyStr.differs_from_empty (input_file g)
        then c <~ lift (PyStr.around (input_file g)
                          (fun f => "dor stdin=" +++ f)) ;;
             cmd d c
        else ret "") ;;
  _ <~ cmd d ("doo;db " +++ stop g) ;;
  _ <~ (if jump g
        then _ <~ cmd d ("dr rip = " +++ start g) ;;
             cmd d ("dr eip = " +++ start g)
        else cmd d ("db " +++ start g +++ ";dc")) ;;
  _ <~ cmd_value d (commands g) ;;
  _ <~ (if bruteforceIsMem g
        then let hex_value := PyStr.slice (PyStr.hex value) (Some 2) None in
             c <~ lift (PyStr.around (input_length g)
                          (fun w => "w0 " +++ w +++ " @" +++ bruteforce g)) ;;
             _ <~ cmd d c ;;
             cmd d ("wB 0x" +++ hex_value +++ " @" +++ bruteforce g)
        else cmd d ("dr " +++ bruteforce g +++ " = " +++ PyStr.str value)) ;;
  _ <~ cmd d "dc" ;;
  if outputIsMem g
  then c <~ lift (PyStr.around (output_length g)
                    (fun w => "pv" +++ w +++ " @" +++ output g)) ;;
       s <~ cmd d c ;;
       lift (PyStr.int 16 s)
  else s <~ cmd d ("dr " +++ output g) ;;
       lift (PyStr.int 16 (PyStr.strip s)).

(** The whole call: its outcome, the events of its session, and the shared
    list [points] after it (line 103 appends only when nothing raised). *)
Definition execute (g : Globals) (d : debugger) (value : Z)
  (points : list (Z * Z)) : result unit * list event * list (Z * Z) :=
  match execute_session g d value [] with
  | (inr r, t) => (ok tt, t, points ++ [(value, r)])
  | (inl e, t) => (raise e, t, points)
  end.

(** The value a call records for an input, or the exception it dies of. *)
Definition run_driver (g : Globals) (d : debugger) (value : Z) : result Z :=
  fst (execute_session g d value []).

(** ** The thread pool (lines 105-107) *)

(** What a worker running one task does to [points]: the append of line 103
    when the driver returned, nothing when it raised (the exception stays in
    a future nobody reads). *)
Definition worker (driver : Z -> result Z) (v : Z) (points : list (Z * Z))
  : list (Z * Z) :=
  match driver v with
  | inr r => points ++ [(v, r)]
  | inl _ => points
  end.

(** What a call that has ended does to [points], given how it ended. *)
Definition record (v : Z) (res : result Z) (points : list (Z * Z))
  : list (Z * Z) :=
  match res with
  | inr r => points ++ [(v, r)]
  | inl _ => points
  end.

(** State of [executor.map]: the values still queued (first in, first out),
    the values whose call is in flight on some worker, and the shared list.
    Sessions are private to their call, so the only step of a call that
    touches shared state is its [points.append], one atomic step of the
    interpreter. *)
Record pool : Type := {
  queue : list Z;
  running : list Z;
  points : list (Z * Z)
}.

(** The moves of the pool.  [call v] is how the call for [v] ends, or
    [None] when it never ends: lines 79 and 93 wait for the debugger
    without any time limit.  A worker takes the next queued value when
    fewer than [max_workers] calls are in flight; a call in flight that
    ends leaves the pool, having appended its point if it returned.  A
    call that never ends stays in flight. *)
Inductive pool_move (call : Z -> option (result Z)) (max_workers : nat)
  : pool -> pool -> Prop :=
| move_take : forall v q r p,
    (List.length r < max_workers)%nat ->
    pool_move call max_workers
      {| queue := v :: q; running := r; points := p |}
      {| queue := q; running := v :: r; points := p |}
| move_finish : forall v res q r1 r2 p,
    call v = Some res ->
    pool_move call max_workers
      {| queue := q; running := r1 ++ v :: r2; points := p |}
      {| queue := q; running := r1 ++ r2; points := record v res p |}.

Inductive pool_moves (call : Z -> option (result Z)) (max_workers : nat)
  : pool -> pool -> Prop :=
| moves_done : forall s, pool_moves call max_workers s s
| moves_step : forall s1 s2 s3,
    pool_move call max_workers s1 s2 ->
    pool_moves call max_workers s2 s3 ->
    pool_moves call max_workers s1 s3.

(** The moves of the pool for a driver, a function that tells how each
    call ends: here every call ends, by returning or by raising. *)
Definition pool_step (driver : Z -> result Z) (max_workers : nat)
  : pool -> pool -> Prop :=
  pool_move (fun v => Some (driver v)) max_workers.

Inductive pool_run (driver : Z -> result Z) (max_workers : nat)
  : pool -> pool -> Prop :=
| run_done : forall s, pool_run driver max_workers s s
| run_step : forall s1 s2 s3,
    pool_step driver max_workers s1 s2 ->
    pool_run driver max_workers s2 s3 ->
    pool_run driver max_workers s1 s3.

(** The pool as [executor.map] leaves it after submitting every value. *)
Definition submitted (values : list Z) : pool :=
  {| queue := values; running := []; points := [] |}.

(** The pool when the [with] block is left: nothing queued or in flight. *)
Definition drained (s : pool) : Prop := queue s = [] /\ running s = [].

(** A complete sweep of [values] on [max_workers] workers ending in [s]. *)
Definition sweeps (driver : Z -> result Z) (max_workers : nat)
  (values : list Z) (s : pool) : Prop :=
  pool_run driver max_workers (submitted values) s /\ drained s.

(** The sweep with the calls made one after another, in order. *)
Definition sequential (driver : Z -> result Z) (values : list Z)
  : list (Z * Z) :=
  fold_left (fun p v => worker driver v p) values [].

(** The points of the values on which the driver returns. *)
Definition collected (driver : Z -> result Z) (values : list Z)
  : list (Z * Z) :=
  flat_map (fun v => match driver v with
                     | inr r => [(v, r)]
                     | inl _ => []
                     end) values.

(** ** Reporting (lines 109-118) *)

Fixpoint insert_point (p : Z * Z) (l : list (Z * Z)) : list (Z * Z) :=
  match l with
  | [] => [p]
  | q :: r => if fst p <=? fst q then p :: l else q :: insert_point p r
  end.

(** [sorted(points, key=lambda x: x[0])]: a new list, stable. *)
Definition sorted_by_input (l : list (Z * Z)) : list (Z * Z) :=
  fold_right insert_point [] l.

(** [zip] over the unpacked [points] (line 115): the tuple of inputs and
    the tuple of outputs, or nothing at all when there is no point. *)
Definition zip_star (l : list (Z * Z)) : list (list Z) :=
  match l with
  | [] => []
  | _ => [map fst l; map snd l]
  end.

(** [plt.scatter] over the unpacked [xy] (line 118) needs its two
    positional arguments. *)
Definition scatter (xy : list (list Z)) : result (list Z * list Z) :=
  match xy with
  | x :: y :: _ => ok (x, y)
  | _ => raise TypeError
  end.

(** Everything the script shows for a list of points: the list it prints
    and the sequences it hands to the plot. *)
Record Report : Type := {
  printed : list (Z * Z);
  plotted : result (list Z * list Z)
}.

Definition report (pts : list (Z * Z)) : Report :=
  {| printed := sorted_by_input pts;
     plotted := scatter (zip_star pts) |}.

(** A list of points in ascending order of input. *)
Definition ascending (l : list (Z * Z)) : Prop :=
  Sorted (fun p q => fst p <= fst q) l.

(** ** Observations on a call *)

Definition is_open (e : event) : bool :=
  match e with Open _ _ => true | _ => false end.

Definition is_quit (e : event) : bool :=
  match e with Quit => true | _ => false end.

(** The events of the session of a call. *)
Definition trace_of (x : result unit * list event * list (Z * Z))
  : list event := snd (fst x).

Definition outcome_of (x : result unit * list event * list (Z * Z))
  : result unit := fst (fst x).

Definition points_of (x : result unit * list event * list (Z * Z))
  : list (Z * Z) := snd x.

(** Session code that does nothing but send commands. *)
Definition sends_commands {A : Type} (m : Session A) : Prop :=
  forall t, exists cs, snd (m t) = t ++ map Cmd cs.

(** ** Sample configurations *)

(** Register in, register out: [eax] between two addresses. *)
Definition sample_registers : Globals :=
  {| filename := "./target"; start := "0x1149"; stop := "0x1160";
     bruteforce := "eax"; bruteforceIsMem := false;
     output := "eax"; outputIsMem := false;
     lower_bound := 0; upper_bound := 10; step := 2; threads := 5;
     input_file := Some ""; input_length := Some "1";
     output_length := Some "1";
     commands := Some ""; x_is_hex := false; y_is_hex := false; jump := false |}.

(** One byte of memory in, register out. *)
Definition sample_memory : Globals :=
  {| filename := "./target"; start := "0x1149"; stop := "0x1160";
     bruteforce := "rbp-0x8"; bruteforceIsMem := true;
     output := "eax"; outputIsMem := false;
     lower_bound := 250; upper_bound := 260; step := 1; threads := 5;
     input_file := Some ""; input_length := Some "1";
     output_length := Some "1";
     commands := Some ""; x_is_hex := false; y_is_hex := false; jump := false |}.

(** A debugger that answers everything with the same number. *)
Definition constant_debugger : debugger :=
  {| launch := fun _ => true; reply := fun _ => ok "0x0000002a";
     refusal := TypeError |}.

(** A debugger whose target dies before the stop address: the [dc] that
    resumes it, and everything after, is answered by an exception. *)
Definition dying_debugger : debugger :=
  {| launch := fun _ => true;
     reply := fun h => if existsb (String.eqb "dc") h
                       then raise DebuggerError else ok "";
     refusal := TypeError |}.

(** A driver that doubles its input and fails on 5. *)
Definition doubling_but_5 (v : Z) : result Z :=
  if v =? 5 then raise DebuggerError else ok (2 * v).

(** A driver that doubles its input. *)
Definition doubling (v : Z) : result Z := ok (2 * v).

(** A debugger whose target crashes once [eax] has been set to 5 and that
    answers 42 otherwise. *)
Definition crash_on_5 : debugger :=
  {| launch := fun _ => true;
     reply := fun h => if existsb (String.eqb "dr eax = 5") h
                       then raise DebuggerError else ok "0x0000002a";
     refusal := TypeError |}.

(** The values not equal to [bad]. *)
Definition without (bad : Z) (values : list Z) : list Z :=
  filter (fun v => negb (v =? bad)) values.

(** ** Auxiliary notions of the proofs *)

(** The arithmetic progression underlying [range]. *)
Definition progression (lo st : Z) (from n : nat) : list Z :=
  map (fun i => lo + Z.of_nat i * st) (seq from n).

(** The bounds both forms of the range text read. *)
Definition bounds_of (lo_text hi_text : string) : result (Z * Z * Z) :=
  lb_text <- PyStr.list_item (PyStr.split "[" ("[" +++ lo_text)) 1 ;;
  lb <- PyStr.int 10 lb_text ;;
  ub <- PyStr.int 10 hi_text ;;
  ok (lb, ub, 1).

(** The text of an option that has one. *)
Definition text (x : option string) : string :=
  match x with
  | Some s => s
  | None => ""
  end.

(** The events of a call up to the injection of the input. *)
Definition prelude (g : Globals) : list event :=
  [Open (filename g) ["d"; "A"]]
  ++ (if PyStr.differs_from_empty (input_file g)
      then [Cmd ("dor stdin=" +++ text (input_file g))] else [])
  ++ [Cmd ("doo;db " +++ stop g)]
  ++ (if jump g
      then [Cmd ("dr rip = " +++ start g); Cmd ("dr eip = " +++ start g)]
      else [Cmd ("db " +++ start g +++ ";dc")])
  ++ [Cmd (text (commands g))].

(** What is recorded, in flight and queued always adds up to the points of
    the values submitted. *)
Definition accounted (driver : Z -> result Z) (values : list Z) (s : pool)
  : Prop :=
  Permutation
    (points s ++ collected driver (running s) ++ collected driver (queue s))
    (collected driver values).

(** With a single worker the order of the appends is forced. *)
Definition in_order (driver : Z -> result Z) (values : list Z) (s : pool)
  : Prop :=
  (List.length (running s) <= 1)%nat
  /\ fold_left (fun p v => worker driver v p) (running s ++ queue s)
       (points s)
     = sequential driver values.

(** Every character of a text passes a test. *)
Fixpoint all_chars (P : ascii -> bool) (s : string) : bool :=
  match s with
  | "" => true
  | String c r => P c && all_chars P r
  end.

(** The ten decimal digits. *)
Definition is_decimal (c : ascii) : bool :=
  let n := nat_of_ascii c in ((48 <=? n) && (n <=? 57))%nat.

(** Neither white space nor one of the separators of the range text. *)
Definition is_plain (c : ascii) : bool :=
  negb (PyStr.isspace c) && negb (Ascii.eqb c ",")
  && negb (Ascii.eqb c "[") && negb (Ascii.eqb c "]").

(** ** Further notions *)

(** The characters of base-16 text as [hex] writes it. *)
Definition is_hex (c : ascii) : bool :=
  is_decimal c
  || (let n := nat_of_ascii c in ((97 <=? n) && (n <=? 102))%nat).

(** The command that reads the output location (lines 98 and 100). *)
Definition read_command (g : Globals) : string :=
  if outputIsMem g
  then "pv" +++ text (output_length g) +++ " @" +++ output g
  else "dr " +++ output g.

(** The commands that inject the input value (lines 85-90). *)
Definition injection (g : Globals) (value : Z) : list event :=
  if bruteforceIsMem g
  then [Cmd ("w0 " +++ text (input_length g) +++ " @" +++ bruteforce g);
        Cmd ("wB 0x" +++ PyStr.slice (PyStr.hex value) (Some 2) None
             +++ " @" +++ bruteforce g)]
  else [Cmd ("dr " +++ bruteforce g +++ " = " +++ PyStr.str value)].

(** Everything a call does to the debugger when nothing stops it. *)
Definition script (g : Globals) (value : Z) : list event :=
  prelude g ++ injection g value ++ [Cmd "dc"; Cmd (read_command g)].

(** The output read from the answer to the read command (lines 98 and
    100). *)
Definition read_output (g : Globals) (s : string) : result Z :=
  if outputIsMem g then PyStr.int 16 s else PyStr.int 16 (PyStr.strip s).

(** A debugger that launches every target and answers every command, with
    any text at all. *)
Definition responsive (d : debugger) : Prop :=
  (forall f, launch d f = true) /\ forall h, exists s, reply d h = ok s.

(** No option that the call uses was given without a value. *)
Definition ready (g : Globals) : Prop :=
  input_file g <> None
  /\ commands g <> None
  /\ (bruteforceIsMem g = true -> input_length g <> None)
  /\ (outputIsMem g = true -> output_length g <> None).

(** Session code that does the events of a list, in order, and stops
    before the end of the list only by raising. *)
Definition plays {A : Type} (m : Session A) (evs : list event) : Prop :=
  forall t, exists done rest,
    snd (m t) = t ++ done
    /\ evs = done ++ rest
    /\ (forall a, fst (m t) = ok a -> rest = []).

(** Every command of a history was answered without an exception. *)
Definition all_answered (d : debugger) (h : list string) : Prop :=
  forall p c q, h = p ++ c :: q -> exists s, reply d (p ++ [c]) = ok s.

(** Every command of a history that is followed by another command was
    answered without an exception. *)
Definition answered_before_last (d : debugger) (h : list string) : Prop :=
  forall p c q, h = p ++ c :: q -> q <> [] ->
                exists s, reply d (p ++ [c]) = ok s.

(** Session code that stops at the first command answered by an
    exception. *)
Definition stops_at_failure {A : Type} (d : debugger) (m : Session A)
  : Prop :=
  forall t, all_answered d (sent t) ->
            match fst (m t) with
            | inr _ => all_answered d (sent (snd (m t)))
            | inl _ => answered_before_last d (sent (snd (m t)))
            end.

(** Moves of the pool together with their number. *)
Inductive pool_moves_steps (call : Z -> option (result Z))
  (max_workers : nat) : nat -> pool -> pool -> Prop :=
| steps_done : forall s, pool_moves_steps call max_workers 0 s s
| steps_step : forall k s1 s2 s3,
    pool_move call max_workers s1 s2 ->
    pool_moves_steps call max_workers k s2 s3 ->
    pool_moves_steps call max_workers (S k) s1 s3.

(** Every value queued or in flight has a call that ends, and no more
    calls are in flight than there are workers. *)
Definition all_end (call : Z -> option (result Z)) (max_workers : nat)
  (s : pool) : Prop :=
  (List.length (running s) <= max_workers)%nat
  /\ forall v, In v (queue s ++ running s) -> call v <> None.

(** A call that never ends on the value 5 and doubles the others. *)
Definition stalls_on_5 (v : Z) : option (result Z) :=
  if v =? 5 then None else Some (ok (2 * v)).

(** The work left in a pool: a queued value needs two steps, a value in
    flight one. *)
Definition work_left (s : pool) : nat :=
  2 * List.length (queue s) + List.length (running s).

(** Points in strictly ascending order of input. *)
Definition strictly_ascending (l : list (Z * Z)) : Prop :=
  StronglySorted (fun p q => fst p < fst q) l.

(** A command line whose input descriptor lacks its closing bracket. *)
Definition sample_args : Args :=
  {| arg_filename := "./target"; arg_start := "0x1149";
     arg_stop := "0x1160"; arg_input := "m[rbp-0x8";
     arg_output := "eax"; arg_range := "[0,10,2]";
     arg_threads := Some "5";
     arg_input_file := Some ""; arg_input_length := Some "1";
     arg_output_length := Some "1"; arg_commands := Some "";
     arg_x_is_hex := false; arg_y_is_hex := false;
     arg_jump := false |}.

(** Lines 28-107 up to the first call: the command line is read, the pool
    is created (a pool of no worker or fewer is refused with
    [ValueError]) and the range is built. *)
Definition startup (a : Args) : result (Globals * list Z) :=
  g <- parse_args a ;;
  _ <- (if threads g <=? 0 then raise ValueError else ok tt) ;;
  values <- range (lower_bound g) (upper_bound g) (step g) ;;
  ok (g, values).

(** The script, run on a command line against a debugger, prints [out]
    (lines 28-111), for some schedule of the calls. *)
Definition prints (a : Args) (d : debugger) (out : list (Z * Z)) : Prop :=
  exists g values s,
    startup a = ok (g, values)
    /\ sweeps (run_driver g d) (Z.to_nat (threads g)) values s
    /\ out = printed (report (points s)).

(** The globals read from [sample_args]. *)
Definition sample_registers_parsed : Globals :=
  {| filename := "./target"; start := "0x1149"; stop := "0x1160";
     bruteforce := "m[rbp-0x8"; bruteforceIsMem := false;
     output := "eax"; outputIsMem := false;
     lower_bound := 0; upper_bound := 10; step := 2; threads := 5;
     input_file := Some ""; input_length := Some "1";
     output_length := Some "1";
     commands := Some ""; x_is_hex := false; y_is_hex := false; jump := false |}.

(** * Properties *)

(** ** The text operations on examples *)

Example split_range : PyStr.split "," "[0,101,5]" = ["[0"; "101"; "5]"] .
Proof. reflexivity. Qed.

Example split_empty : PyStr.split "," "" = [""].
Proof. reflexivity. Qed.

Example int_examples :
  PyStr.int 10 " -12_0 " = ok (-120) /\ PyStr.int 16 "0x0000002a" = ok 42
  /\ PyStr.int 10 "1]" = raise ValueError /\ PyStr.int 10 "" = raise ValueError
  /\ PyStr.int 16 "0x" = raise ValueError /\ PyStr.int 10 "007" = ok 7.
Proof. repeat split; reflexivity. Qed.

Example int_space_examples :
  PyStr.int 10 (String (ascii_of_nat 28) "5") = raise ValueError
  /\ PyStr.strip (String (ascii_of_nat 28) "5") = "5"
  /\ PyStr.int 10 (String (ascii_of_nat 9) "5 ") = ok 5.
Proof. repeat split; reflexivity. Qed.

Example hex_examples :
  PyStr.hex 256 = "0x100" /\ PyStr.hex 0 = "0x0"
  /\ PyStr.hex (-5) = "-0x5" /\ PyStr.str (-15) = "-15".
Proof. repeat split; reflexivity. Qed.

Example slice_examples :
  PyStr.slice "m[rbp-0x8]" (Some 2) (Some (-1)) = "rbp-0x8"
  /\ PyStr.slice "m[" (Some 2) (Some (-1)) = ""
  /\ PyStr.slice "10]" None (Some (-1)) = "10"
  /\ PyStr.item "abc" (-1) = ok "c"%char
  /\ PyStr.item "" (-1) = raise IndexError.
Proof. repeat split; reflexivity. Qed.

(** ** Text *)

Lemma text_length_app (s t : string) :
  String.length (s +++ t) = (String.length s + String.length t)%nat.
Proof. induction s as [|c s IH]; simpl; [reflexivity | now rewrite IH]. Qed.

Lemma get_end (s : string) (c : ascii) (t : string) :
  String.get (String.length s) (s +++ String c t) = Some c.
Proof. induction s as [|a s IH]; simpl; [reflexivity | exact IH]. Qed.

Lemma substring_whole_prefix (s t : string) :
  String.substring 0 (String.length s) (s +++ t) = s.
Proof.
  induction s as [|a s IH]; simpl.
  - destruct t; reflexivity.
  - now rewrite IH.
Qed.

Lemma slice_drop_last (s : string) (c : ascii) :
  PyStr.slice (s +++ String c "") None (Some (-1)) = s.
Proof.
  unfold PyStr.slice, PyStr.clip. rewrite text_length_app. simpl String.length.
  replace (-1 <? 0) with true by reflexivity.
  replace (Z.to_nat 0) with 0%nat by reflexivity.
  replace (Z.to_nat _) with (String.length s) by lia.
  apply substring_whole_prefix.
Qed.

Lemma item_last (s : string) (c : ascii) :
  PyStr.item (s +++ String c "") (-1) = ok c.
Proof.
  unfold PyStr.item. rewrite text_length_app. simpl String.length.
  replace (-1 <? 0) with true by reflexivity.
  replace (Z.of_nat (String.length s + 1) + -1) with (Z.of_nat (String.length s)) by lia.
  rewrite Nat2Z.id, get_end.
  destruct (Z.ltb_spec (Z.of_nat (String.length s)) 0); [lia|].
  destruct (Z.leb_spec (Z.of_nat (String.length s + 1)) (Z.of_nat (String.length s))); [lia|].
  reflexivity.
Qed.

Lemma get_in_range (s : string) (n : nat) :
  (n < String.length s)%nat -> exists c, String.get n s = Some c.
Proof.
  revert n. induction s as [|a s IH]; simpl; intros n H; [lia|].
  destruct n as [|n]; [eauto|]. apply IH. lia.
Qed.

Lemma item_last_defined (s : string) :
  s <> "" -> exists c, PyStr.item s (-1) = ok c.
Proof.
  intros N. unfold PyStr.item.
  set (len := Z.of_nat (String.length s)).
  assert (1 <= len) by (unfold len; destruct s; [congruence | simpl; lia]).
  replace (-1 <? 0) with true by reflexivity.
  destruct (Z.ltb_spec (len + -1) 0); [lia|].
  destruct (Z.leb_spec len (len + -1)); [lia|]. simpl orb.
  destruct (get_in_range s (Z.to_nat (len + -1))) as [c ->]; [unfold len in *; lia|].
  eauto.
Qed.

Lemma startswith_app (p s : string) : PyStr.startswith (p +++ s) p = true.
Proof.
  unfold PyStr.startswith. induction p as [|a p IH]; simpl.
  - destruct s; reflexivity.
  - destruct (ascii_dec a a); [exact IH | congruence].
Qed.

(** ** Location descriptors *)

Lemma parse_descriptor_total (s : string) :
  exists d, parse_descriptor s = ok d.
Proof.
  unfold parse_descriptor.
  destruct (PyStr.startswith s "m[") eqn:P; [|eauto].
  destruct (item_last_defined s) as [c ->].
  - intros ->. discriminate P.
  - simpl. destruct (Ascii.eqb c "]"); eauto.
Qed.

Lemma parse_location_total (s : string) :
  exists l, parse_location s = ok l.
Proof.
  unfold parse_location. destruct (parse_descriptor_total s) as [d ->].
  simpl. eauto.
Qed.

(** C7 (location of a well-formed descriptor).  A descriptor that does not
    begin with [m[] is a register under its own name, and [m[] followed by
    an expression and a closing bracket is the memory location of that
    expression, kept verbatim; in particular ["eax"] and ["m[rbp-0x8]"]
    parse as the specification's examples say. *)
Theorem wellformed_location (s : string) :
  (PyStr.startswith s "m[" = false -> parse_location s = ok (Register s))
  /\ parse_location ("m[" +++ s +++ "]") = ok (Memory s)
  /\ parse_location "eax" = ok (Register "eax")
  /\ parse_location "m[rbp-0x8]" = ok (Memory "rbp-0x8").
Proof.
  repeat split; try reflexivity.
  - intros P. unfold parse_location, parse_descriptor. now rewrite P.
  - unfold parse_location, parse_descriptor.
    rewrite (startswith_app "m[" (s +++ "]")).
    change ("m[" +++ s +++ "]") with (String "m" (String "[" (s +++ "]"))).
    change (String "m" (String "[" (s +++ "]")))
      with (("m[" +++ s) +++ String "]" "") at 1.
    rewrite item_last. simpl bind.
    unfold location_of. simpl fst. simpl snd. do 2 f_equal.
    unfold PyStr.slice, PyStr.clip. simpl String.length. rewrite text_length_app.
    simpl String.length.
    replace (2 <? 0) with false by reflexivity.
    replace (-1 <? 0) with true by reflexivity.
    set (n := String.length s).
    replace (Z.min _ 2) with 2 by lia.
    replace (Z.to_nat 2) with 2%nat by reflexivity.
    replace (Z.to_nat _) with n by lia.
    simpl String.substring. f_equal. apply substring_whole_prefix.
Qed.

Lemma wellformed_location_witness :
  PyStr.startswith "rax" "m[" = false
  /\ parse_location "rax" = ok (Register "rax").
Proof.
  split; [reflexivity|].
  apply (proj1 (wellformed_location "rax")). reflexivity.
Defined.

(** C8, as stated, fails: the unterminated descriptor ["m[rbp-0x8"] raises
    nothing and is classified as a register. *)
Lemma unterminated_not_rejected :
  parse_location "m[rbp-0x8" = ok (Register "m[rbp-0x8")
  /\ ~ (exists e, parse_location "m[rbp-0x8" = raise e).
Proof.
  split; [reflexivity|]. intros [e H]. discriminate H.
Qed.

(** C8 (amended).  A descriptor that begins with [m[] but does not end with
    a closing bracket is classified as a register whose name is the whole
    descriptor, and parsing a descriptor never raises. *)
Theorem unterminated_is_register (s : string) (c : ascii) :
  PyStr.startswith s "m[" = true ->
  PyStr.item s (-1) = ok c ->
  Ascii.eqb c "]" = false ->
  parse_location s = ok (Register s)
  /\ forall t, exists l, parse_location t = ok l.
Proof.
  intros P I E. split; [|apply parse_location_total].
  unfold parse_location, parse_descriptor. rewrite P, I. simpl. now rewrite E.
Qed.

Lemma unterminated_is_register_witness :
  parse_location "m[rbp-0x8" = ok (Register "m[rbp-0x8").
Proof.
  apply (unterminated_is_register "m[rbp-0x8" "8"); reflexivity.
Defined.

(** ** The swept range *)

Lemma ceil_div_spec (a b : Z) :
  0 < b -> b * (ceil_div a b - 1) < a <= b * ceil_div a b.
Proof.
  intros Hb. unfold ceil_div.
  pose proof (Z.mul_div_le (- a) b Hb).
  pose proof (Z.mul_succ_div_gt (- a) b Hb). lia.
Qed.

Lemma range_len_ceil (lo hi st : Z) :
  0 < st -> lo < hi -> range_len lo hi st = ceil_div (hi - lo) st.
Proof.
  intros Hs Hl. unfold range_len.
  destruct (Z.ltb_spec 0 st); [|lia].
  destruct (Z.ltb_spec lo hi); [|lia].
  pose proof (ceil_div_spec (hi - lo) st Hs) as C.
  pose proof (Z.mul_div_le (hi - lo - 1) st Hs).
  pose proof (Z.mul_succ_div_gt (hi - lo - 1) st Hs).
  nia.
Qed.

Lemma range_len_nonneg (lo hi st : Z) : 0 <= range_len lo hi st.
Proof.
  unfold range_len.
  destruct (Z.ltb_spec 0 st).
  - destruct (Z.ltb_spec lo hi); [|lia].
    pose proof (Z.div_pos (hi - lo - 1) st). lia.
  - destruct (Z.ltb_spec hi lo); [|lia].
    destruct (Z.eq_dec st 0) as [->|]; [simpl; rewrite Z.div_0_r; lia|].
    pose proof (Z.div_pos (lo - hi - 1) (- st)). lia.
Qed.

Lemma range_progression (lo hi st : Z) :
  st <> 0 ->
  range lo hi st = ok (progression lo st 0 (Z.to_nat (range_len lo hi st))).
Proof.
  intros H. unfold range. destruct (Z.eqb_spec st 0); [contradiction|].
  reflexivity.
Qed.

Lemma progression_length (lo st : Z) (from n : nat) :
  List.length (progression lo st from n) = n.
Proof. unfold progression. now rewrite length_map, length_seq. Qed.

Lemma progression_nth (lo st : Z) (from n i : nat) :
  (i < n)%nat ->
  nth i (progression lo st from n) 0 = lo + Z.of_nat (from + i) * st.
Proof.
  intros H. unfold progression.
  rewrite (nth_indep _ 0 ((fun i => lo + Z.of_nat i * st) 0%nat))
    by now rewrite length_map, length_seq.
  rewrite (map_nth (fun i => lo + Z.of_nat i * st)).
  now rewrite seq_nth.
Qed.

Lemma progression_In (lo st : Z) (from n : nat) (x : Z) :
  In x (progression lo st from n) ->
  exists i, (from <= i < from + n)%nat /\ x = lo + Z.of_nat i * st.
Proof.
  unfold progression. rewrite in_map_iff. intros [i [E I]].
  apply in_seq in I. eauto.
Qed.

Lemma progression_increasing (lo st : Z) (from n : nat) :
  0 < st -> StronglySorted Z.lt (progression lo st from n).
Proof.
  intros Hs. revert from. induction n as [|n IH]; intros from.
  - constructor.
  - change (progression lo st from (S n))
      with ((lo + Z.of_nat from * st) :: progression lo st (S from) n).
    constructor; [apply IH|].
    apply Forall_forall. intros x Hx.
    apply progression_In in Hx. destruct Hx as [i [Hi ->]]. nia.
Qed.

Lemma progression_decreasing (lo st : Z) (from n : nat) :
  st < 0 -> StronglySorted Z.gt (progression lo st from n).
Proof.
  intros Hs. revert from. induction n as [|n IH]; intros from.
  - constructor.
  - change (progression lo st from (S n))
      with ((lo + Z.of_nat from * st) :: progression lo st (S from) n).
    constructor; [apply IH|].
    apply Forall_forall. intros x Hx.
    apply progression_In in Hx. destruct Hx as [i [Hi ->]]. nia.
Qed.

(** ** The textual range *)

Lemma contains_cons (c a : ascii) (s : string) :
  PyStr.contains (String c "") (String a s)
  = Ascii.eqb a c || PyStr.contains (String c "") s.
Proof.
  unfold PyStr.contains. simpl String.index.
  destruct (ascii_dec c a) as [->|N].
  - rewrite Ascii.eqb_refl. destruct s; reflexivity.
  - assert (E : Ascii.eqb a c = false)
      by (apply Ascii.eqb_neq; congruence).
    rewrite E. simpl. destruct (String.index 0 (String c "") s); reflexivity.
Qed.

Lemma contains_app (c : ascii) (s t : string) :
  PyStr.contains (String c "") (s +++ t)
  = PyStr.contains (String c "") s || PyStr.contains (String c "") t.
Proof.
  induction s as [|a s IH].
  - reflexivity.
  - simpl String.append. rewrite !contains_cons, IH. apply orb_assoc.
Qed.

Lemma split_app_sep (sep : ascii) (s t : string) :
  PyStr.contains (String sep "") s = false ->
  PyStr.split sep (s +++ String sep t) = s :: PyStr.split sep t.
Proof.
  induction s as [|a s IH]; intros H.
  - simpl. unfold PyStr.split_cons. now rewrite Ascii.eqb_refl.
  - rewrite contains_cons in H. apply orb_false_elim in H as [Ha Hs].
    simpl. rewrite (IH Hs). unfold PyStr.split_cons. now rewrite Ha.
Qed.

Lemma split_no_sep (sep : ascii) (s : string) :
  PyStr.contains (String sep "") s = false -> PyStr.split sep s = [s].
Proof.
  induction s as [|a s IH]; intros H.
  - reflexivity.
  - rewrite contains_cons in H. apply orb_false_elim in H as [Ha Hs].
    simpl. rewrite (IH Hs). unfold PyStr.split_cons. now rewrite Ha.
Qed.

Lemma parse_two_form (lo_text hi_text : string) :
  PyStr.contains "," lo_text = false ->
  PyStr.contains "," hi_text = false ->
  parse_range ("[" +++ lo_text +++ "," +++ hi_text +++ "]")
  = bounds_of lo_text hi_text.
Proof.
  intros Hl Hh. unfold parse_range, bounds_of.
  change ("[" +++ lo_text +++ "," +++ hi_text +++ "]")
    with (("[" +++ lo_text) +++ String "," (hi_text +++ "]")).
  rewrite split_app_sep by (rewrite contains_app, Hl; reflexivity).
  rewrite split_no_sep by (rewrite contains_app, Hh; reflexivity).
  cbn [bind ok PyStr.list_item nth_error List.length Nat.eqb].
  rewrite contains_app.
  replace (PyStr.contains "]" "]") with true by reflexivity.
  rewrite orb_true_r, slice_drop_last.
  destruct (nth_error (PyStr.split "[" ("[" +++ lo_text)) 1)
    as [lb_text|]; [|reflexivity].
  cbn [bind ok raise].
  destruct (PyStr.int 10 lb_text) as [e|lb]; [reflexivity|].
  cbn [bind ok raise].
  destruct (PyStr.int 10 hi_text) as [e|ub]; reflexivity.
Qed.

Lemma parse_three_form_one (lo_text hi_text : string) :
  PyStr.contains "," lo_text = false ->
  PyStr.contains "," hi_text = false ->
  PyStr.contains "]" hi_text = false ->
  parse_range ("[" +++ lo_text +++ "," +++ hi_text +++ ",1]")
  = bounds_of lo_text hi_text.
Proof.
  intros Hl Hh Hb. unfold parse_range, bounds_of.
  change ("[" +++ lo_text +++ "," +++ hi_text +++ ",1]")
    with (("[" +++ lo_text) +++ String "," (hi_text +++ String "," "1]")).
  rewrite split_app_sep by (rewrite contains_app, Hl; reflexivity).
  rewrite split_app_sep by exact Hh.
  replace (PyStr.split "," "1]") with ["1]"] by reflexivity.
  cbn [bind ok PyStr.list_item nth_error List.length Nat.eqb].
  rewrite Hb.
  replace (PyStr.int 10 (PyStr.slice "1]" None (Some (-1)))) with (ok 1)
    by reflexivity.
  destruct (nth_error (PyStr.split "[" ("[" +++ lo_text)) 1)
    as [lb_text|]; [|reflexivity].
  cbn [bind ok raise].
  destruct (PyStr.int 10 lb_text) as [e|lb]; [reflexivity|].
  cbn [bind ok raise].
  destruct (PyStr.int 10 hi_text) as [e|ub]; reflexivity.
Qed.

(** ** Decimal text of an integer *)

Lemma all_chars_impl (P Q : ascii -> bool) (s : string) :
  (forall c, P c = true -> Q c = true) ->
  all_chars P s = true -> all_chars Q s = true.
Proof.
  intros I. induction s as [|c s IH]; simpl; [reflexivity|].
  intros H. apply andb_prop in H as [Hc Hs].
  now rewrite (I c Hc), (IH Hs).
Qed.

Lemma decimal_chars (d : Decimal.uint) :
  all_chars is_decimal (DecimalString.NilEmpty.string_of_uint d) = true.
Proof. induction d; simpl; auto. Qed.

Lemma decimal_is_plain (c : ascii) : is_decimal c = true -> is_plain c = true.
Proof.
  destruct c as [[] [] [] [] [] [] [] []]; intros H;
    solve [reflexivity | discriminate H].
Qed.

Lemma plain_not_int_space (c : ascii) :
  is_plain c = true -> PyStr.int_space c = false.
Proof.
  destruct c as [[] [] [] [] [] [] [] []]; intros H;
    solve [reflexivity | discriminate H].
Qed.

Lemma plain_not_space (c : ascii) :
  is_plain c = true -> PyStr.isspace c = false.
Proof.
  destruct c as [[] [] [] [] [] [] [] []]; intros H;
    solve [reflexivity | discriminate H].
Qed.

Lemma lstrip_by_plain (sp : ascii -> bool) (s : string) :
  (forall c, is_plain c = true -> sp c = false) ->
  all_chars is_plain s = true -> PyStr.lstrip_by sp s = s.
Proof.
  intros I. destruct s as [|c s]; simpl; [reflexivity|]. intros H.
  apply andb_prop in H as [Hc _]. now rewrite (I c Hc).
Qed.

Lemma rstrip_by_plain (sp : ascii -> bool) (s : string) :
  (forall c, is_plain c = true -> sp c = false) ->
  all_chars is_plain s = true -> PyStr.rstrip_by sp s = s.
Proof.
  intros I. induction s as [|c s IH]; simpl; [reflexivity|]. intros H.
  apply andb_prop in H as [Hc Hs]. rewrite (IH Hs), (I c Hc).
  destruct s; reflexivity.
Qed.

Lemma strip_plain (s : string) :
  all_chars is_plain s = true -> PyStr.strip s = s.
Proof.
  intros H. unfold PyStr.strip, PyStr.lstrip, PyStr.rstrip.
  rewrite (lstrip_by_plain _ s plain_not_space H).
  now apply rstrip_by_plain; [apply plain_not_space|].
Qed.

Lemma int_trim_plain (s : string) :
  all_chars is_plain s = true -> PyStr.int_trim s = s.
Proof.
  intros H. unfold PyStr.int_trim.
  rewrite (lstrip_by_plain _ s plain_not_int_space H).
  now apply rstrip_by_plain; [apply plain_not_int_space|].
Qed.

Lemma plain_no_char (c : ascii) (s : string) :
  is_plain c = false ->
  all_chars is_plain s = true -> PyStr.contains (String c "") s = false.
Proof.
  intros N. induction s as [|a s IH]; [reflexivity|]. simpl.
  intros H. apply andb_prop in H as [Ha Hs].
  rewrite contains_cons, (IH Hs), orb_false_r.
  apply Ascii.eqb_neq. intros ->. congruence.
Qed.

Lemma digits_from_digit (base acc d : Z) (c : ascii) (r : string) :
  Ascii.eqb c PyStr.underscore = false ->
  PyStr.digit_value c = Some d ->
  (d <? base) = true ->
  PyStr.digits_from base acc false (String c r)
  = PyStr.digits_from base (acc * base + d) false r.
Proof. intros U V B. simpl. now rewrite U, V, B. Qed.

Ltac decimal_step IH :=
  cbn [DecimalString.NilEmpty.string_of_uint Pos.of_uint_acc Pos.of_uint];
  match goal with
  | |- PyStr.digits_from 10 _ false (String ?c _) = _ =>
      let k := eval vm_compute in (Z.of_nat (nat_of_ascii c) - 48) in
      rewrite (digits_from_digit 10 _ k c) by reflexivity
  end;
  match goal with
  | |- PyStr.digits_from 10 ?a false _ = Some (Z.pos (Pos.of_uint_acc _ ?b)) =>
      replace a with (Z.pos b) by lia; apply IH
  end.

Lemma digits_from_acc (d : Decimal.uint) (acc : positive) :
  PyStr.digits_from 10 (Z.pos acc) false
    (DecimalString.NilEmpty.string_of_uint d)
  = Some (Z.pos (Pos.of_uint_acc d acc)).
Proof.
  revert acc.
  induction d as [|d IH|d IH|d IH|d IH|d IH|d IH|d IH|d IH|d IH|d IH];
    intros acc; [reflexivity|..]; decimal_step IH.
Qed.

Lemma digits_from_zero (d : Decimal.uint) :
  PyStr.digits_from 10 0 false (DecimalString.NilEmpty.string_of_uint d)
  = Some (Z.of_N (Pos.of_uint d)).
Proof.
  induction d as [|d IH|d IH|d IH|d IH|d IH|d IH|d IH|d IH|d IH|d IH];
    [reflexivity | exact IH | ..];
    cbn [DecimalString.NilEmpty.string_of_uint Pos.of_uint Z.of_N];
    decimal_step digits_from_acc.
Qed.

Lemma digits_decimal (p : positive) :
  PyStr.digits 10 (DecimalString.NilEmpty.string_of_uint (Pos.to_uint p))
  = Some (Z.pos p).
Proof.
  pose proof (DecimalPos.Unsigned.to_uint_nonnil p) as N.
  pose proof (DecimalPos.Unsigned.of_to p) as E.
  pose proof (digits_from_zero (Pos.to_uint p)) as D.
  rewrite E in D. change (Z.of_N (N.pos p)) with (Z.pos p) in D.
  rewrite <- D.
  destruct (Pos.to_uint p); [contradiction|..]; reflexivity.
Qed.

Lemma str_unsigned (p : positive) :
  PyStr.str (Z.pos p)
  = DecimalString.NilEmpty.string_of_uint (Pos.to_uint p).
Proof.
  unfold PyStr.str. simpl.
  pose proof (DecimalPos.Unsigned.to_uint_nonnil p) as N.
  unfold DecimalString.NilZero.string_of_uint.
  destruct (Pos.to_uint p); [contradiction|..]; reflexivity.
Qed.

Lemma str_negative (p : positive) :
  PyStr.str (Z.neg p)
  = String "-" (DecimalString.NilEmpty.string_of_uint (Pos.to_uint p)).
Proof.
  unfold PyStr.str. simpl.
  pose proof (DecimalPos.Unsigned.to_uint_nonnil p) as N.
  unfold DecimalString.NilZero.string_of_uint.
  destruct (Pos.to_uint p); [contradiction|..]; reflexivity.
Qed.

Lemma str_plain (z : Z) : all_chars is_plain (PyStr.str z) = true.
Proof.
  destruct z as [|p|p].
  - reflexivity.
  - rewrite str_unsigned.
    exact (all_chars_impl _ _ _ decimal_is_plain (decimal_chars _)).
  - rewrite str_negative. simpl.
    exact (all_chars_impl _ _ _ decimal_is_plain (decimal_chars _)).
Qed.

Lemma int_decimal_text (s : string) (n : Z) :
  all_chars is_decimal s = true ->
  PyStr.digits 10 s = Some n ->
  PyStr.int 10 s = ok n /\ PyStr.int 10 (String "-" s) = ok (- n).
Proof.
  intros C D.
  pose proof (all_chars_impl _ _ _ decimal_is_plain C) as P.
  assert (P' : all_chars is_plain (String "-" s) = true) by exact P.
  unfold PyStr.int. rewrite (int_trim_plain _ P), (int_trim_plain _ P').
  replace (10 =? 16) with false by reflexivity.
  split; [|cbv beta iota zeta; now rewrite D].
  destruct s as [|c r]; [discriminate D|].
  simpl in C. apply andb_prop in C as [Cc _].
  destruct c as [[] [] [] [] [] [] [] []]; try discriminate Cc;
    cbv beta iota zeta; now rewrite D.
Qed.

(** [int(str(z)) == z] *)
Lemma int_str (z : Z) : PyStr.int 10 (PyStr.str z) = ok z.
Proof.
  destruct z as [|p|p].
  - reflexivity.
  - rewrite str_unsigned.
    apply (int_decimal_text _ _ (decimal_chars _) (digits_decimal p)).
  - rewrite str_negative.
    apply (int_decimal_text _ _ (decimal_chars _) (digits_decimal p)).
Qed.

Lemma default_step_text (lo_text hi_text : string) :
  PyStr.contains "," lo_text = false ->
  PyStr.contains "," hi_text = false ->
  PyStr.contains "]" hi_text = false ->
  parse_range ("[" +++ lo_text +++ "," +++ hi_text +++ "]")
  = parse_range ("[" +++ lo_text +++ "," +++ hi_text +++ ",1]")
  /\ (forall lb ub st,
        parse_range ("[" +++ lo_text +++ "," +++ hi_text +++ "]")
        = ok (lb, ub, st) -> st = 1)
  /\ expand_range ("[" +++ lo_text +++ "," +++ hi_text +++ "]")
     = expand_range ("[" +++ lo_text +++ "," +++ hi_text +++ ",1]").
Proof.
  intros Hl Hh Hb.
  pose proof (parse_two_form lo_text hi_text Hl Hh) as P2.
  pose proof (parse_three_form_one lo_text hi_text Hl Hh Hb) as P3.
  split; [congruence|]. split.
  - intros lb ub st H. rewrite P2 in H. unfold bounds_of in H.
    destruct (PyStr.list_item (PyStr.split "[" ("[" +++ lo_text)) 1)
      as [e|lb_text]; [discriminate H|]. simpl in H.
    destruct (PyStr.int 10 lb_text) as [e|lb']; [discriminate H|]. simpl in H.
    destruct (PyStr.int 10 hi_text) as [e|ub']; [discriminate H|]. simpl in H.
    unfold ok in H. congruence.
  - unfold expand_range. now rewrite P2, P3.
Qed.

Lemma str_no_char (z : Z) (c : ascii) :
  is_plain c = false -> PyStr.contains (String c "") (PyStr.str z) = false.
Proof. intros N. apply plain_no_char; [exact N | apply str_plain]. Qed.

Lemma lower_text_str (lo : Z) :
  nth_error (PyStr.split "[" ("[" +++ PyStr.str lo)) 1 = Some (PyStr.str lo).
Proof.
  cbn [String.append PyStr.split].
  rewrite (split_no_sep "[" (PyStr.str lo)) by now apply str_no_char.
  unfold PyStr.split_cons. now rewrite Ascii.eqb_refl.
Qed.

Lemma bounds_of_str (lo hi : Z) :
  bounds_of (PyStr.str lo) (PyStr.str hi) = ok (lo, hi, 1).
Proof.
  unfold bounds_of, PyStr.list_item. rewrite lower_text_str.
  cbn [bind ok]. rewrite !int_str. reflexivity.
Qed.

(** The three-element range text of three integers reads as them. *)
Lemma parse_range_str (lo hi st : Z) :
  parse_range ("[" +++ PyStr.str lo +++ "," +++ PyStr.str hi
               +++ "," +++ PyStr.str st +++ "]")
  = ok (lo, hi, st).
Proof.
  unfold parse_range.
  change ("[" +++ PyStr.str lo +++ "," +++ PyStr.str hi
          +++ "," +++ PyStr.str st +++ "]")
    with (("[" +++ PyStr.str lo)
          +++ String "," (PyStr.str hi +++ String "," (PyStr.str st +++ "]"))).
  rewrite split_app_sep by (rewrite contains_app, str_no_char; reflexivity).
  rewrite split_app_sep by now apply str_no_char.
  rewrite split_no_sep by (rewrite contains_app, str_no_char; reflexivity).
  cbn [bind ok PyStr.list_item nth_error List.length Nat.eqb].
  unfold PyStr.list_item. rewrite lower_text_str.
  rewrite (str_no_char hi "]"%char) by reflexivity.
  rewrite slice_drop_last. cbn [bind ok]. rewrite !int_str. reflexivity.
Qed.

Lemma expand_range_str (lo hi st : Z) :
  expand_range ("[" +++ PyStr.str lo +++ "," +++ PyStr.str hi
                +++ "," +++ PyStr.str st +++ "]")
  = range lo hi st.
Proof. unfold expand_range. now rewrite parse_range_str. Qed.

(** ** The claims on the range *)

(** C5 (range expansion).  For a positive step and a lower bound below the
    upper bound, [range], and with it the expansion of the range text of
    these three integers, returns a sequence that starts at the lower bound,
    whose element of index [i] is [lo + i * st], so that consecutive
    elements differ by exactly the step and the sequence is strictly
    increasing, whose elements are all below the upper bound, and whose
    length is the rounded-up quotient of [hi - lo] by the step. *)
Theorem range_expansion (lo hi st : Z) :
  0 < st -> lo < hi ->
  exists l,
    range lo hi st = ok l
    /\ expand_range ("[" +++ PyStr.str lo +++ "," +++ PyStr.str hi
                     +++ "," +++ PyStr.str st +++ "]") = ok l
    /\ hd_error l = Some lo
    /\ (forall i, (i < List.length l)%nat -> nth i l 0 = lo + Z.of_nat i * st)
    /\ (forall i, (S i < List.length l)%nat -> nth (S i) l 0 - nth i l 0 = st)
    /\ StronglySorted Z.lt l
    /\ Forall (fun x => x < hi) l
    /\ Z.of_nat (List.length l) = ceil_div (hi - lo) st.
Proof.
  intros Hs Hl.
  pose proof (range_len_ceil lo hi st Hs Hl) as L.
  pose proof (ceil_div_spec (hi - lo) st Hs) as C.
  pose proof (range_len_nonneg lo hi st) as N.
  set (n := Z.to_nat (range_len lo hi st)).
  assert (Hn : Z.of_nat n = ceil_div (hi - lo) st) by (unfold n; lia).
  exists (progression lo st 0 n).
  split; [apply range_progression; lia|].
  split; [rewrite expand_range_str; apply range_progression; lia|].
  assert (Hnth : forall i, (i < n)%nat ->
            nth i (progression lo st 0 n) 0 = lo + Z.of_nat i * st).
  { intros i Hi. now rewrite progression_nth. }
  rewrite progression_length.
  split; [|split; [exact Hnth|split; [|split; [|split]]]].
  - destruct n as [|n']; [nia|]. simpl. f_equal. lia.
  - intros i Hi. rewrite !Hnth by lia. lia.
  - now apply progression_increasing.
  - apply Forall_forall. intros x Hx.
    apply progression_In in Hx. destruct Hx as [i [Hi ->]]. nia.
  - exact Hn.
Qed.

Lemma range_expansion_witness :
  exists l,
    range 0 101 5 = ok l
    /\ expand_range ("[" +++ PyStr.str 0 +++ "," +++ PyStr.str 101
                     +++ "," +++ PyStr.str 5 +++ "]") = ok l
    /\ hd_error l = Some 0
    /\ (forall i, (i < List.length l)%nat -> nth i l 0 = 0 + Z.of_nat i * 5)
    /\ (forall i, (S i < List.length l)%nat -> nth (S i) l 0 - nth i l 0 = 5)
    /\ StronglySorted Z.lt l
    /\ Forall (fun x => x < 101) l
    /\ Z.of_nat (List.length l) = ceil_div (101 - 0) 5.
Proof. apply (range_expansion 0 101 5); lia. Defined.

(** C6, as stated, fails: a negative step with the bounds in descending
    order is swept downwards, and an empty range is accepted and yields no
    value; neither raises anything. *)
Lemma invalid_range_not_rejected :
  expand_range "[10,0,-1]" = ok [10; 9; 8; 7; 6; 5; 4; 3; 2; 1]
  /\ expand_range "[5,5]" = ok []
  /\ range 10 0 (-1) = ok [10; 9; 8; 7; 6; 5; 4; 3; 2; 1]
  /\ range 7 3 2 = ok [].
Proof. repeat split; reflexivity. Qed.

(** C6 (amended).  The range text of three integers expands to what
    [range] returns for them.  Range expansion raises exactly when the
    step is zero, and what it raises is the interpreter's [ValueError]; a
    positive step with [lo >= hi] and a negative step with [lo <= hi]
    give the empty sequence without any error; a negative step with
    [lo > hi] gives the sequence [lo], [lo + st], [lo + 2 * st], ...: it
    starts at [lo], its element of index [i] is [lo + i * st], so that
    consecutive elements differ by exactly the step and the sequence is
    strictly decreasing, its elements are all above [hi], and its length
    is the rounded-up quotient of [lo - hi] by [- st]. *)
Theorem range_validation (lo hi st : Z) :
  expand_range ("[" +++ PyStr.str lo +++ "," +++ PyStr.str hi
                +++ "," +++ PyStr.str st +++ "]") = range lo hi st
  /\ (forall e, range lo hi st = raise e <-> e = ValueError /\ st = 0)
  /\ (0 < st -> hi <= lo -> range lo hi st = ok [])
  /\ (st < 0 -> lo <= hi -> range lo hi st = ok [])
  /\ (st < 0 -> hi < lo ->
      exists l, range lo hi st = ok (lo :: l)
                /\ (forall i, (i < List.length (lo :: l))%nat ->
                               nth i (lo :: l) 0 = lo + Z.of_nat i * st)
                /\ (forall i, (S i < List.length (lo :: l))%nat ->
                               nth (S i) (lo :: l) 0 - nth i (lo :: l) 0 = st)
                /\ StronglySorted Z.gt (lo :: l)
                /\ Forall (fun x => hi < x) (lo :: l)
                /\ Z.of_nat (List.length (lo :: l))
                   = ceil_div (lo - hi) (- st)).
Proof.
  split; [apply expand_range_str|].
  split; [|split; [|split]].
  - intros e. unfold range, raise, ok. destruct (Z.eqb_spec st 0).
    + split; [intros H; injection H as <-; auto | intros [-> _]; reflexivity].
    + split; [discriminate | intros [_ ?]; contradiction].
  - intros Hs Hl. rewrite range_progression by lia. unfold range_len.
    destruct (Z.ltb_spec 0 st); [|lia].
    destruct (Z.ltb_spec lo hi); [lia|]. reflexivity.
  - intros Hs Hl. rewrite range_progression by lia. unfold range_len.
    destruct (Z.ltb_spec 0 st); [lia|].
    destruct (Z.ltb_spec hi lo); [lia|]. reflexivity.
  - intros Hs Hl. rewrite range_progression by lia.
    assert (L : range_len lo hi st = (lo - hi - 1) / (- st) + 1).
    { unfold range_len. destruct (Z.ltb_spec 0 st); [lia|].
      destruct (Z.ltb_spec hi lo); [reflexivity|lia]. }
    assert (Hp : 0 < - st) by lia.
    pose proof (Z.div_pos (lo - hi - 1) (- st)) as D.
    pose proof (Z.mul_div_le (lo - hi - 1) (- st) Hp) as M.
    pose proof (Z.mul_succ_div_gt (lo - hi - 1) (- st) Hp) as M'.
    pose proof (ceil_div_spec (lo - hi) (- st) Hp) as C.
    set (n := Z.to_nat (range_len lo hi st)).
    assert (Hn : Z.of_nat n = (lo - hi - 1) / (- st) + 1) by (unfold n; lia).
    destruct n as [|n'] eqn:E; [lia|].
    exists (progression lo st 1 n').
    assert (P : progression lo st 0 (S n') = lo :: progression lo st 1 n').
    { unfold progression. simpl. f_equal. lia. }
    rewrite <- P.
    assert (Hnth : forall i, (i < S n')%nat ->
              nth i (progression lo st 0 (S n')) 0 = lo + Z.of_nat i * st).
    { intros i Hi. now rewrite progression_nth. }
    rewrite progression_length.
    split; [reflexivity|]. split; [exact Hnth|].
    split; [intros i Hi; rewrite !Hnth by lia; lia|]. split; [|split].
    + now apply progression_decreasing.
    + apply Forall_forall. intros x Hx.
      apply progression_In in Hx. destruct Hx as [i [Hi ->]]. nia.
    + nia.
Qed.

Lemma range_validation_witness :
  range 3 3 1 = ok [] /\ range 3 9 (-2) = ok []
  /\ exists l, range 9 3 (-2) = ok (9 :: l)
               /\ (forall i, (i < List.length (9%Z :: l))%nat ->
                              nth i (9 :: l) 0 = 9 + Z.of_nat i * (-2))
               /\ (forall i, (S i < List.length (9%Z :: l))%nat ->
                              nth (S i) (9 :: l) 0 - nth i (9 :: l) 0 = -2)
               /\ StronglySorted Z.gt (9 :: l)
               /\ Forall (fun x => 3 < x) (9 :: l)
               /\ Z.of_nat (List.length (9 :: l)) = ceil_div (9 - 3) (- -2).
Proof.
  destruct (range_validation 3 3 1) as [_ [_ [A _]]].
  destruct (range_validation 3 9 (-2)) as [_ [_ [_ [B _]]]].
  destruct (range_validation 9 3 (-2)) as [_ [_ [_ [_ C]]]].
  split; [apply A; lia|]. split; [apply B; lia|]. apply C; lia.
Defined.

(** C10 (default step).  For all integers [lo] and [hi], the range text
    of the two-element form reads as the bounds [lo] and [hi] with step 1,
    exactly as the three-element form with step 1 does, and both sweep
    [range(lo, hi, 1)].  More generally, for any two-element range text
    whose parts hold no comma and whose upper part holds no closing
    bracket, parsing agrees with the same text with [,1] added, the step
    read is 1, and the swept values are the same. *)
Theorem default_step (lo hi : Z) (lo_text hi_text : string) :
  parse_range ("[" +++ PyStr.str lo +++ "," +++ PyStr.str hi +++ "]")
  = ok (lo, hi, 1)
  /\ parse_range ("[" +++ PyStr.str lo +++ "," +++ PyStr.str hi +++ ",1]")
     = ok (lo, hi, 1)
  /\ expand_range ("[" +++ PyStr.str lo +++ "," +++ PyStr.str hi +++ "]")
     = range lo hi 1
  /\ expand_range ("[" +++ PyStr.str lo +++ "," +++ PyStr.str hi +++ ",1]")
     = range lo hi 1
  /\ (PyStr.contains "," lo_text = false ->
      PyStr.contains "," hi_text = false ->
      PyStr.contains "]" hi_text = false ->
      parse_range ("[" +++ lo_text +++ "," +++ hi_text +++ "]")
      = parse_range ("[" +++ lo_text +++ "," +++ hi_text +++ ",1]")
      /\ (forall lb ub st,
            parse_range ("[" +++ lo_text +++ "," +++ hi_text +++ "]")
            = ok (lb, ub, st) -> st = 1)
      /\ expand_range ("[" +++ lo_text +++ "," +++ hi_text +++ "]")
         = expand_range ("[" +++ lo_text +++ "," +++ hi_text +++ ",1]")).
Proof.
  pose proof str_no_char as C.
  assert (P2 : parse_range
                 ("[" +++ PyStr.str lo +++ "," +++ PyStr.str hi +++ "]")
               = ok (lo, hi, 1)).
  { rewrite parse_two_form by (apply C; reflexivity). apply bounds_of_str. }
  assert (P3 : parse_range
                 ("[" +++ PyStr.str lo +++ "," +++ PyStr.str hi +++ ",1]")
               = ok (lo, hi, 1)).
  { rewrite parse_three_form_one by (apply C; reflexivity).
    apply bounds_of_str. }
  split; [exact P2|]. split; [exact P3|].
  split; [unfold expand_range; rewrite P2; reflexivity|].
  split; [unfold expand_range; rewrite P3; reflexivity|].
  apply default_step_text.
Qed.

Lemma default_step_witness :
  parse_range ("[" +++ "0" +++ "," +++ "101" +++ "]")
  = parse_range ("[" +++ "0" +++ "," +++ "101" +++ ",1]")
  /\ expand_range ("[" +++ "3" +++ "," +++ "6" +++ "]")
     = expand_range ("[" +++ "3" +++ "," +++ "6" +++ ",1]").
Proof.
  split.
  - exact (proj1 (proj2 (proj2 (proj2 (proj2
             (default_step 0 101 "0" "101")))) eq_refl eq_refl eq_refl)).
  - exact (proj2 (proj2 (proj2 (proj2 (proj2 (proj2
             (default_step 3 6 "3" "6")))) eq_refl eq_refl eq_refl))).
Defined.

(** ** Reporting *)

Lemma insert_point_perm (p : Z * Z) (l : list (Z * Z)) :
  Permutation (insert_point p l) (p :: l).
Proof.
  induction l as [|q l IH]; simpl; [reflexivity|].
  destruct (fst p <=? fst q); [reflexivity|].
  rewrite IH. apply perm_swap.
Qed.

Lemma sorted_by_input_perm (l : list (Z * Z)) :
  Permutation (sorted_by_input l) l.
Proof.
  induction l as [|p l IH]; simpl; [reflexivity|].
  rewrite insert_point_perm. now constructor.
Qed.

Lemma insert_point_ascending (p : Z * Z) (l : list (Z * Z)) :
  ascending l -> ascending (insert_point p l).
Proof.
  unfold ascending. induction l as [|q l IH]; intros H; simpl.
  - repeat constructor.
  - destruct (Z.leb_spec (fst p) (fst q)) as [L|L].
    + constructor; [exact H|]. constructor. exact L.
    + inversion H as [|? ? Hs Hh]; subst.
      constructor; [apply IH, Hs|].
      destruct l as [|r l]; simpl.
      * constructor. lia.
      * destruct (fst p <=? fst r); constructor; [lia|].
        inversion Hh; subst. assumption.
Qed.

Lemma sorted_by_input_ascending (l : list (Z * Z)) :
  ascending (sorted_by_input l).
Proof.
  induction l as [|p l IH]; simpl; [constructor|].
  now apply insert_point_ascending.
Qed.

(** Stability: points with the same input keep their relative order. *)
Lemma insert_point_filter (k : Z) (p : Z * Z) (l : list (Z * Z)) :
  ascending l ->
  filter (fun q => fst q =? k) (insert_point p l)
  = filter (fun q => fst q =? k) (p :: l).
Proof.
  unfold ascending. induction l as [|q l IH]; intros H; [reflexivity|].
  simpl insert_point. destruct (Z.leb_spec (fst p) (fst q)) as [L|L];
    [reflexivity|].
  inversion H as [|? ? Hs Hh]; subst.
  simpl filter at 1. rewrite (IH Hs). simpl.
  destruct (Z.eqb_spec (fst q) k), (Z.eqb_spec (fst p) k);
    try reflexivity. lia.
Qed.

Lemma sorted_by_input_stable (k : Z) (l : list (Z * Z)) :
  filter (fun q => fst q =? k) (sorted_by_input l)
  = filter (fun q => fst q =? k) l.
Proof.
  induction l as [|p l IH]; [reflexivity|].
  simpl sorted_by_input.
  rewrite insert_point_filter by apply sorted_by_input_ascending.
  simpl. now rewrite IH.
Qed.

Lemma combine_fst_snd {A B : Type} (l : list (A * B)) :
  combine (map fst l) (map snd l) = l.
Proof.
  induction l as [|[a b] l IH]; simpl; [reflexivity | now rewrite IH].
Qed.

(** C9, as stated, fails: with the points stored in the order [(2, 4)],
    [(0, 0)], the list printed is sorted but the sequences handed to the
    plot are not those of the sorted points. *)
Lemma plotted_not_sorted :
  printed (report [(2, 4); (0, 0)]) = [(0, 0); (2, 4)]
  /\ plotted (report [(2, 4); (0, 0)]) = ok ([2; 0], [4; 0])
  /\ plotted (report [(2, 4); (0, 0)])
     <> ok (map fst (printed (report [(2, 4); (0, 0)])),
            map snd (printed (report [(2, 4); (0, 0)]))).
Proof.
  split; [reflexivity|]. split; [reflexivity|]. discriminate.
Qed.

(** C9 (amended).  The list the Reporter prints is the points sorted
    ascending by input value (a stable rearrangement of all the points).
    The parallel input and output sequences handed to the plot are split
    from the points in the order in which they are stored, not from the
    sorted list: paired up again they are the stored points, hence the
    same points as the printed ones up to order. *)
Theorem report_sorted_print (pts : list (Z * Z)) :
  ascending (printed (report pts))
  /\ Permutation (printed (report pts)) pts
  /\ (forall k, filter (fun q => fst q =? k) (printed (report pts))
                = filter (fun q => fst q =? k) pts)
  /\ (pts <> [] ->
      plotted (report pts) = ok (map fst pts, map snd pts)
      /\ Permutation (combine (map fst pts) (map snd pts))
                     (printed (report pts))).
Proof.
  split; [apply sorted_by_input_ascending|].
  split; [apply sorted_by_input_perm|].
  split; [intros k; apply sorted_by_input_stable|].
  intros N. split.
  - destruct pts; [contradiction | reflexivity].
  - rewrite combine_fst_snd. symmetry. apply sorted_by_input_perm.
Qed.

Lemma report_sorted_print_witness :
  plotted (report [(4, 8); (0, 0); (2, 4)]) = ok ([4; 0; 2], [8; 0; 4])
  /\ Permutation (combine [4; 0; 2] [8; 0; 4])
                 (printed (report [(4, 8); (0, 0); (2, 4)])).
Proof.
  apply (report_sorted_print [(4, 8); (0, 0); (2, 4)]). discriminate.
Defined.

(** ** One call of [execute] *)

Lemma sends_ret {A : Type} (a : A) : sends_commands (ret a).
Proof. intros t. exists []. simpl. now rewrite app_nil_r. Qed.

Lemma sends_lift {A : Type} (r : result A) : sends_commands (lift r).
Proof. intros t. exists []. simpl. now rewrite app_nil_r. Qed.

Lemma sends_cmd (d : debugger) (c : string) : sends_commands (cmd d c).
Proof. intros t. exists [c]. reflexivity. Qed.

Lemma sends_bind {A B : Type} (m : Session A) (k : A -> Session B) :
  sends_commands m -> (forall a, sends_commands (k a)) ->
  sends_commands (sbind m k).
Proof.
  intros Hm Hk t. unfold sbind. destruct (Hm t) as [cs E].
  destruct (m t) as [[e|a] t']; simpl in E; subst t'.
  - exists cs. reflexivity.
  - destruct (Hk a (t ++ map Cmd cs)) as [cs' E'].
    exists (cs ++ cs'). now rewrite E', map_app, app_assoc.
Qed.

Lemma sends_cmd_value (d : debugger) (x : option string) :
  sends_commands (cmd_value d x).
Proof. destruct x; [apply sends_cmd | apply sends_lift]. Qed.

Ltac sends :=
  cbv beta zeta;
  repeat match goal with
    | |- sends_commands (sbind _ _) =>
        apply sends_bind; [|intros ?; cbv beta zeta]
    | |- sends_commands (cmd_value _ _) => apply sends_cmd_value
    | |- sends_commands (cmd _ _) => apply sends_cmd
    | |- sends_commands (ret _) => apply sends_ret
    | |- sends_commands (lift _) => apply sends_lift
    | |- sends_commands (if ?b then _ else _) => destruct b
    end.

Lemma open_then {A : Type} (d : debugger) (f : string) (fl : list string)
  (k : unit -> Session A) :
  sends_commands (k tt) ->
  exists cs, snd (sbind (r2_open d f fl) k []) = Open f fl :: map Cmd cs.
Proof.
  intros H. unfold sbind, r2_open. destruct (launch d f).
  - destruct (H ([] ++ [Open f fl])) as [cs E]. exists cs. exact E.
  - exists []. reflexivity.
Qed.

Lemma execute_session_trace (g : Globals) (d : debugger) (value : Z) :
  exists cs,
    snd (execute_session g d value [])
    = Open (filename g) ["d"; "A"] :: map Cmd cs.
Proof. unfold execute_session. apply open_then. sends. Qed.

Lemma filter_open_cmds (cs : list string) : filter is_open (map Cmd cs) = [].
Proof. induction cs; simpl; auto. Qed.

Lemma filter_quit_cmds (cs : list string) : filter is_quit (map Cmd cs) = [].
Proof. induction cs; simpl; auto. Qed.

Lemma execute_trace (g : Globals) (d : debugger) (value : Z)
  (pts : list (Z * Z)) :
  trace_of (execute g d value pts) = snd (execute_session g d value []).
Proof.
  unfold execute, trace_of.
  destruct (execute_session g d value []) as [[e|r] t]; reflexivity.
Qed.

(** C2, as stated, fails: neither a call that returns nor a call that
    dies of an exception ever closes its session. *)
Lemma session_left_open :
  outcome_of (execute sample_registers constant_debugger 7 []) = ok tt
  /\ existsb is_quit
       (trace_of (execute sample_registers constant_debugger 7 [])) = false
  /\ outcome_of (execute sample_registers dying_debugger 7 [])
     = raise DebuggerError
  /\ existsb is_quit
       (trace_of (execute sample_registers dying_debugger 7 [])) = false.
Proof. repeat split; reflexivity. Qed.

(** C2 (amended).  Every call of [execute] for one input value opens
    exactly one debugging session, as its first action, and everything
    else it does to the debugger is a command sent on that session; on no
    exit path, returning or raising, does the call itself close or
    terminate the session. *)
Theorem one_session_never_closed (g : Globals) (d : debugger) (value : Z)
  (pts : list (Z * Z)) :
  (exists cs, trace_of (execute g d value pts)
              = Open (filename g) ["d"; "A"] :: map Cmd cs)
  /\ List.length (filter is_open (trace_of (execute g d value pts))) = 1%nat
  /\ filter is_quit (trace_of (execute g d value pts)) = [].
Proof.
  rewrite execute_trace.
  destruct (execute_session_trace g d value) as [cs E]. rewrite E.
  split; [eauto|]. simpl. now rewrite filter_open_cmds, filter_quit_cmds.
Qed.

(** ** Injection into memory *)

Lemma substring_all (s : string) :
  String.substring 0 (String.length s) s = s.
Proof. induction s as [|a s IH]; simpl; [reflexivity | now rewrite IH]. Qed.

Lemma slice_from_2 (a b : ascii) (s : string) :
  PyStr.slice (String a (String b s)) (Some 2) None = s.
Proof.
  unfold PyStr.slice, PyStr.clip. simpl String.length.
  replace (2 <? 0) with false by reflexivity.
  replace (Z.min _ 2) with 2 by lia.
  replace (Z.to_nat 2) with 2%nat by reflexivity.
  replace (Z.to_nat _) with (String.length s) by lia.
  simpl. apply substring_all.
Qed.

(** For a value that is not negative, the text after [wB ] is [hex(value)]
    in full. *)
Lemma hex_value_whole (value : Z) :
  0 <= value ->
  "0x" +++ PyStr.slice (PyStr.hex value) (Some 2) None = PyStr.hex value.
Proof.
  intros H. unfold PyStr.hex. destruct (Z.ltb_spec value 0); [lia|].
  cbn [String.append]. now rewrite slice_from_2.
Qed.

Lemma cmd_responded (d : debugger) (c : string) (t : list event) :
  responsive d ->
  exists s, reply d (sent (t ++ [Cmd c])) = ok s
            /\ cmd d c t = (ok s, t ++ [Cmd c]).
Proof.
  intros [_ H]. unfold cmd.
  destruct (H (sent (t ++ [Cmd c]))) as (s & E).
  exists s. rewrite E. auto.
Qed.

Ltac answer H :=
  match goal with
  | |- context [cmd ?d ?c ?t] =>
      let s := fresh "s" in
      let E := fresh "E" in
      let C := fresh "C" in
      destruct (cmd_responded d c t H) as (s & E & C);
      rewrite C; clear C; cbv beta iota delta [ok]
  end.

(** Against a debugger that answers every command, a call whose options
    all have a value sends its whole script, and whether it records a
    point is decided by reading the last answer alone. *)
Lemma execute_responsive (g : Globals) (d : debugger) (value : Z)
  (pts : list (Z * Z)) :
  ready g -> responsive d ->
  exists s,
    reply d (sent (script g value)) = ok s
    /\ execute g d value pts
       = match read_output g s with
         | inr r => (ok tt, script g value, pts ++ [(value, r)])
         | inl e => (raise e, script g value, pts)
         end.
Proof.
  intros (Rf & Rc & Ri & Ro) A.
  destruct (input_file g) as [f|] eqn:Ef; [|congruence].
  destruct (commands g) as [c|] eqn:Ec; [|congruence].
  unfold execute, execute_session, script, prelude, injection,
    read_command, read_output.
  rewrite Ef, Ec.
  unfold sbind, r2_open, cmd_value, ret, lift, PyStr.around,
    PyStr.differs_from_empty, text.
  rewrite (proj1 A). cbv beta iota delta [ok].
  destruct (bruteforceIsMem g) eqn:Em.
  - destruct (input_length g) as [w|] eqn:Ew; [|now specialize (Ri eq_refl)].
    destruct (outputIsMem g) eqn:Eo.
    + destruct (output_length g) as [l|] eqn:El;
        [|now specialize (Ro eq_refl)].
      destruct (negb (f =? "")%string), (jump g);
        cbv beta iota zeta delta [ok]; repeat answer A;
        match goal with
        | E : reply d ?h = ok ?s |- exists _, reply d ?h' = _ /\ _ =>
            exists s; split; [exact E|]
        end;
        match goal with
        | |- context [PyStr.int 16 ?s] => destruct (PyStr.int 16 s)
        end; repeat rewrite <- app_assoc; reflexivity.
    + destruct (negb (f =? "")%string), (jump g);
        cbv beta iota zeta delta [ok]; repeat answer A;
        match goal with
        | E : reply d ?h = ok ?s |- exists _, reply d ?h' = _ /\ _ =>
            exists s; split; [exact E|]
        end;
        match goal with
        | |- context [PyStr.int 16 ?s] => destruct (PyStr.int 16 s)
        end; repeat rewrite <- app_assoc; reflexivity.
  - destruct (outputIsMem g) eqn:Eo.
    + destruct (output_length g) as [l|] eqn:El;
        [|now specialize (Ro eq_refl)].
      destruct (negb (f =? "")%string), (jump g);
        cbv beta iota zeta delta [ok]; repeat answer A;
        match goal with
        | E : reply d ?h = ok ?s |- exists _, reply d ?h' = _ /\ _ =>
            exists s; split; [exact E|]
        end;
        match goal with
        | |- context [PyStr.int 16 ?s] => destruct (PyStr.int 16 s)
        end; repeat rewrite <- app_assoc; reflexivity.
    + destruct (negb (f =? "")%string), (jump g);
        cbv beta iota zeta delta [ok]; repeat answer A;
        match goal with
        | E : reply d ?h = ok ?s |- exists _, reply d ?h' = _ /\ _ =>
            exists s; split; [exact E|]
        end;
        match goal with
        | |- context [PyStr.int 16 ?s] => destruct (PyStr.int 16 s)
        end; repeat rewrite <- app_assoc; reflexivity.
Qed.

(** C3, as stated, fails: with one byte configured for a memory input the
    value 256 is injected like any other; the call returns and records a
    point, and the command written holds all three hexadecimal digits. *)
Lemma wide_value_not_rejected :
  outcome_of (execute sample_memory constant_debugger 256 []) = ok tt
  /\ points_of (execute sample_memory constant_debugger 256 []) = [(256, 42)]
  /\ In (Cmd "w0 1 @rbp-0x8")
        (trace_of (execute sample_memory constant_debugger 256 []))
  /\ In (Cmd "wB 0x100 @rbp-0x8")
        (trace_of (execute sample_memory constant_debugger 256 [])).
Proof.
  split; [reflexivity|]. split; [reflexivity|].
  split; vm_compute; tauto.
Qed.

Lemma plays_ret {A : Type} (a : A) : plays (ret a) [].
Proof. intros t. exists [], []. simpl. now rewrite app_nil_r. Qed.

Lemma plays_lift {A : Type} (r : result A) : plays (lift r) [].
Proof. intros t. exists [], []. simpl. now rewrite app_nil_r. Qed.

Lemma plays_cmd (d : debugger) (c : string) : plays (cmd d c) [Cmd c].
Proof. intros t. exists [Cmd c], []. simpl. auto. Qed.

Lemma plays_open (d : debugger) (f : string) (fl : list string) :
  plays (r2_open d f fl) [Open f fl].
Proof. intros t. exists [Open f fl], []. simpl. auto. Qed.

Lemma plays_cmd_value (d : debugger) (x : option string) :
  plays (cmd_value d x) [Cmd (text x)].
Proof.
  destruct x as [c|]; [apply plays_cmd|].
  intros t. exists [], [Cmd (text None)]. simpl.
  rewrite app_nil_r. split; [reflexivity|]. split; [reflexivity|].
  intros a H. discriminate H.
Qed.

Lemma plays_bind {A B : Type} (m : Session A) (k : A -> Session B)
  (l1 l2 : list event) :
  plays m l1 -> (forall a, plays (k a) l2) -> plays (sbind m k) (l1 ++ l2).
Proof.
  intros Hm Hk t. unfold sbind.
  destruct (Hm t) as (d1 & r1 & E1 & L1 & O1).
  destruct (m t) as [[e|a] t']; cbn [fst snd] in *; subst t'.
  - exists d1, (r1 ++ l2). split; [reflexivity|].
    split; [now rewrite L1, app_assoc|]. intros a H. discriminate H.
  - assert (r1 = []) by exact (O1 a eq_refl). subst r1.
    rewrite app_nil_r in L1. subst d1.
    destruct (Hk a (t ++ l1)) as (d2 & r2 & E2 & L2 & O2).
    exists (l1 ++ d2), r2. split; [now rewrite E2, app_assoc|].
    split; [now rewrite L2, app_assoc | exact O2].
Qed.

Lemma plays_around {A : Type} (x : option string) (k : string -> string)
  (m : string -> Session A) (evs : list event) :
  (forall s, x = Some s -> plays (m (k s)) evs) ->
  plays (sbind (lift (PyStr.around x k)) m) evs.
Proof.
  intros H. destruct x as [s|].
  - exact (H s eq_refl).
  - intros t. exists [], evs. unfold sbind, lift. simpl.
    rewrite app_nil_r. split; [reflexivity|]. split; [reflexivity|].
    intros a E. discriminate E.
Qed.

Lemma plays_end {A B : Type} (m : Session A) (k : A -> Session B)
  (l : list event) :
  plays m l -> (forall a, plays (k a) []) -> plays (sbind m k) l.
Proof.
  intros Hm Hk. rewrite <- (app_nil_r l). now apply plays_bind.
Qed.

(** Whatever the debugger does, what a call does to it is a beginning of
    its script. *)
Lemma execute_session_plays (g : Globals) (d : debugger) (value : Z) :
  plays (execute_session g d value) (script g value).
Proof.
  unfold execute_session, script, prelude, injection, read_command.
  repeat rewrite <- app_assoc.
  apply plays_bind; [apply plays_open|]. intros _.
  apply plays_bind.
  { destruct (PyStr.differs_from_empty (input_file g));
      [|apply plays_ret].
    apply plays_around. intros f ->. apply plays_cmd. }
  intros _. apply plays_bind; [apply plays_cmd|]. intros _.
  apply plays_bind.
  { destruct (jump g); [|apply plays_cmd].
    apply (plays_bind _ _ [_] [_]); [apply plays_cmd|].
    intros _. apply plays_cmd. }
  intros _. apply plays_bind; [apply plays_cmd_value|]. intros _.
  apply plays_bind.
  { destruct (bruteforceIsMem g); [|apply plays_cmd]. cbv zeta.
    apply plays_around. intros w ->. cbn [text].
    apply (plays_bind _ _ [_] [_]); [apply plays_cmd|].
    intros _. apply plays_cmd. }
  intros _. apply (plays_bind _ _ [_] [_]); [apply plays_cmd|]. intros _.
  destruct (outputIsMem g).
  - apply plays_around. intros w ->. cbn [text].
    apply plays_end; [apply plays_cmd|]. intros s. apply plays_lift.
  - apply plays_end; [apply plays_cmd|]. intros s. apply plays_lift.
Qed.

(** C3 (amended).  For a memory input with configured width [w], whatever
    the width and the value, the call performs no width check.  What the
    call does to the debugger is always a beginning of one fixed script,
    in which the injection is the command clearing [w] bytes followed by
    the command writing the text of [hex(value)] without its first two
    characters, which for a value that is not negative is the whole of
    [hex(value)].  Against any debugger that answers every command, with
    whatever text, the call sends the whole script, and whether it
    records a point is decided by reading the answer to the last command
    alone: nothing depends on the value fitting the width. *)
Theorem memory_injection_unchecked (g : Globals) (d : debugger) (value : Z)
  (pts : list (Z * Z)) (w : string) :
  bruteforceIsMem g = true ->
  input_length g = Some w ->
  injection g value
  = [Cmd ("w0 " +++ w +++ " @" +++ bruteforce g);
     Cmd ("wB 0x" +++ PyStr.slice (PyStr.hex value) (Some 2) None
          +++ " @" +++ bruteforce g)]
  /\ (exists rest,
        script g value = trace_of (execute g d value pts) ++ rest)
  /\ (ready g -> responsive d ->
      exists s,
        reply d (sent (script g value)) = ok s
        /\ execute g d value pts
           = match read_output g s with
             | inr r => (ok tt, script g value, pts ++ [(value, r)])
             | inl e => (raise e, script g value, pts)
             end)
  /\ (0 <= value ->
      "wB 0x" +++ PyStr.slice (PyStr.hex value) (Some 2) None
      +++ " @" +++ bruteforce g
      = "wB " +++ PyStr.hex value +++ " @" +++ bruteforce g).
Proof.
  intros M W. split; [|split; [|split]].
  - unfold injection. now rewrite M, W.
  - rewrite execute_trace.
    destruct (execute_session_plays g d value []) as (dn & rest & E & L & _).
    exists rest. rewrite E. exact L.
  - apply execute_responsive.
  - intros H. rewrite <- (hex_value_whole value H) at 2. reflexivity.
Qed.

Lemma constant_debugger_responsive : responsive constant_debugger.
Proof. split; [reflexivity|]. intros h. exists "0x0000002a". reflexivity. Qed.

Lemma sample_memory_ready : ready sample_memory.
Proof. repeat split; discriminate. Qed.

Lemma memory_injection_unchecked_witness :
  injection sample_memory 256
  = [Cmd ("w0 " +++ "1" +++ " @" +++ bruteforce sample_memory);
     Cmd ("wB 0x" +++ PyStr.slice (PyStr.hex 256) (Some 2) None
          +++ " @" +++ bruteforce sample_memory)]
  /\ exists s,
       reply constant_debugger (sent (script sample_memory 256)) = ok s
       /\ execute sample_memory constant_debugger 256 []
          = match read_output sample_memory s with
            | inr r => (ok tt, script sample_memory 256, [] ++ [(256, r)])
            | inl e => (raise e, script sample_memory 256, [])
            end.
Proof.
  destruct (memory_injection_unchecked sample_memory constant_debugger 256
              [] "1" eq_refl eq_refl) as (I & _ & R & _).
  split; [exact I|].
  exact (R sample_memory_ready constant_debugger_responsive).
Defined.

(** ** The sweep on the thread pool *)

Lemma step_take (driver : Z -> result Z) (max_workers : nat) (v : Z)
  (q r : list Z) (p : list (Z * Z)) :
  (List.length r < max_workers)%nat ->
  pool_step driver max_workers
    {| queue := v :: q; running := r; points := p |}
    {| queue := q; running := v :: r; points := p |}.
Proof. intros L. apply move_take. exact L. Qed.

Lemma step_finish (driver : Z -> result Z) (max_workers : nat) (v : Z)
  (q r1 r2 : list Z) (p : list (Z * Z)) :
  pool_step driver max_workers
    {| queue := q; running := r1 ++ v :: r2; points := p |}
    {| queue := q; running := r1 ++ r2; points := worker driver v p |}.
Proof.
  exact (move_finish (fun v => Some (driver v)) max_workers v (driver v)
           q r1 r2 p eq_refl).
Qed.

Lemma pool_step_cases (driver : Z -> result Z) (max_workers : nat)
  (s s' : pool) :
  pool_step driver max_workers s s' ->
  (exists v q r p,
      (List.length r < max_workers)%nat
      /\ s = {| queue := v :: q; running := r; points := p |}
      /\ s' = {| queue := q; running := v :: r; points := p |})
  \/ (exists v q r1 r2 p,
         s = {| queue := q; running := r1 ++ v :: r2; points := p |}
         /\ s' = {| queue := q; running := r1 ++ r2;
                    points := worker driver v p |}).
Proof.
  intros St. destruct St as [v q r p L | v res q r1 r2 p E].
  - left. exists v, q, r, p. auto.
  - right. injection E as <-. exists v, q, r1, r2, p. auto.
Qed.

Section Pool.

Variable driver : Z -> result Z.

Lemma worker_app (v : Z) (p : list (Z * Z)) :
  worker driver v p = p ++ collected driver [v].
Proof.
  unfold worker, collected. simpl.
  destruct (driver v); simpl; now rewrite ?app_nil_r.
Qed.

Lemma collected_app (l1 l2 : list Z) :
  collected driver (l1 ++ l2) = collected driver l1 ++ collected driver l2.
Proof. unfold collected. apply flat_map_app. Qed.

Lemma collected_cons (v : Z) (l : list Z) :
  collected driver (v :: l) = collected driver [v] ++ collected driver l.
Proof. apply (collected_app [v] l). Qed.

Lemma step_accounted (n : nat) (values : list Z) (s s' : pool) :
  pool_step driver n s s' -> accounted driver values s -> accounted driver values s'.
Proof.
  unfold accounted. intros St.
  destruct (pool_step_cases _ _ _ _ St)
    as [(v & q & r & p & L & -> & ->)|(v & q & r1 & r2 & p & -> & ->)];
    cbn [points running queue]; intros H; rewrite <- H; clear H.
  - rewrite (collected_cons v r), (collected_cons v q).
    apply Permutation_app_head.
    rewrite <- !app_assoc. apply Permutation_app_swap_app.
  - rewrite worker_app, !collected_app, (collected_cons v r2).
    rewrite <- !app_assoc. apply Permutation_app_head.
    apply Permutation_app_swap_app.
Qed.

Lemma run_accounted (n : nat) (values : list Z) (s s' : pool) :
  pool_run driver n s s' -> accounted driver values s -> accounted driver values s'.
Proof.
  induction 1 as [|s1 s2 s3 St _ IH]; intros A; [exact A|].
  apply IH. exact (step_accounted n values s1 s2 St A).
Qed.

Lemma sweep_points (n : nat) (values : list Z) (s : pool) :
  sweeps driver n values s ->
  Permutation (points s) (collected driver values).
Proof.
  intros [R [Q W]].
  assert (A : accounted driver values s).
  { apply (run_accounted n values _ _ R). unfold accounted.
    cbn [submitted points running queue]. reflexivity. }
  unfold accounted in A. rewrite Q, W in A.
  change (collected driver []) with (@nil (Z * Z)) in A.
  now rewrite !app_nil_r in A.
Qed.

(** One schedule always exists: each value is taken and finished before
    the next one is taken. *)
Lemma run_in_order (n : nat) (q : list Z) (p : list (Z * Z)) :
  (1 <= n)%nat ->
  pool_run driver n
    {| queue := q; running := []; points := p |}
    {| queue := []; running := [];
       points := fold_left (fun p v => worker driver v p) q p |}.
Proof.
  intros Hn. revert p. induction q as [|v q IH]; intros p; simpl.
  - constructor.
  - eapply run_step; [apply step_take; simpl; lia|].
    eapply run_step; [apply (step_finish driver n v q [] [] p)|].
    apply IH.
Qed.

Lemma sweep_completes (n : nat) (values : list Z) :
  (1 <= n)%nat ->
  sweeps driver n values
    {| queue := []; running := []; points := sequential driver values |}.
Proof.
  intros Hn. split; [|split; reflexivity].
  apply run_in_order. exact Hn.
Qed.

Lemma step_in_order (values : list Z) (s s' : pool) :
  pool_step driver 1 s s' -> in_order driver values s -> in_order driver values s'.
Proof.
  unfold in_order. intros St.
  destruct (pool_step_cases _ _ _ _ St)
    as [(v & q & r & p & L & -> & ->)|(v & q & r1 & r2 & p & -> & ->)];
    simpl; intros [B H].
  - destruct r; [|simpl in L; lia]. simpl in *. split; [lia|exact H].
  - rewrite List.length_app in B. simpl in B.
    destruct r1; [|simpl in B; lia]. destruct r2; [|simpl in B; lia].
    simpl in *. split; [lia|exact H].
Qed.

Lemma run_stays_in_order (values : list Z) (s s' : pool) :
  pool_run driver 1 s s' -> in_order driver values s -> in_order driver values s'.
Proof.
  induction 1 as [|s1 s2 s3 St _ IH]; intros I; [exact I|].
  apply IH. exact (step_in_order values s1 s2 St I).
Qed.

Lemma single_worker_points (values : list Z) (s : pool) :
  sweeps driver 1 values s -> points s = sequential driver values.
Proof.
  intros [R [Q W]].
  assert (A : in_order driver values s).
  { apply (run_stays_in_order values _ _ R).
    split; [simpl; lia | reflexivity]. }
  destruct A as [_ A]. rewrite Q, W in A. exact A.
Qed.

Lemma collected_inputs (values : list Z) (v : Z) :
  In v (map fst (collected driver values)) ->
  In v values /\ exists r, driver v = ok r.
Proof.
  induction values as [|a l IH]; [simpl; tauto|].
  rewrite collected_cons, map_app, in_app_iff. intros [H|H].
  - unfold collected in H. simpl in H. destruct (driver a) as [e|r] eqn:E;
      simpl in H; [tauto|]. destruct H as [<-|[]].
    split; [left; reflexivity|]. exists r. exact E.
  - destruct (IH H) as [I X]. split; [right; exact I | exact X].
Qed.

Lemma collected_nodup (values : list Z) :
  NoDup values -> NoDup (map fst (collected driver values)).
Proof.
  induction 1 as [|a l N _ IH]; [constructor|].
  rewrite collected_cons, map_app. unfold collected at 1. simpl flat_map.
  destruct (driver a); simpl; [exact IH|].
  constructor; [|exact IH].
  intros I. apply collected_inputs in I. tauto.
Qed.

Lemma collected_In (values : list Z) (v r : Z) :
  In v values -> driver v = ok r -> In (v, r) (collected driver values).
Proof.
  intros I E. unfold collected. apply in_flat_map. exists v.
  split; [exact I|]. rewrite E. simpl. auto.
Qed.

End Pool.

Lemma execute_points (g : Globals) (d : debugger) (v : Z)
  (p : list (Z * Z)) :
  points_of (execute g d v p) = worker (run_driver g d) v p.
Proof.
  unfold execute, worker, run_driver, points_of.
  destruct (execute_session g d v []) as [[e|r] t]; reflexivity.
Qed.

Lemma increasing_nodup (l : list Z) : StronglySorted Z.lt l -> NoDup l.
Proof.
  induction 1 as [|a l _ IH F]; constructor; [|exact IH].
  intros I. rewrite Forall_forall in F. specialize (F a I). lia.
Qed.

Lemma decreasing_nodup (l : list Z) : StronglySorted Z.gt l -> NoDup l.
Proof.
  induction 1 as [|a l _ IH F]; constructor; [|exact IH].
  intros I. rewrite Forall_forall in F. specialize (F a I). lia.
Qed.

Lemma range_nodup (lo hi st : Z) (values : list Z) :
  range lo hi st = ok values -> NoDup values.
Proof.
  intros H. destruct (Z.eq_dec st 0) as [->|N]; [discriminate H|].
  rewrite range_progression in H by exact N.
  injection H as <-.
  destruct (Z.lt_total st 0) as [L|[E|L]]; [|contradiction|].
  - now apply decreasing_nodup, progression_decreasing.
  - now apply increasing_nodup, progression_increasing.
Qed.

Lemma inputs_nodup (l : list (Z * Z)) : NoDup (map fst l) -> NoDup l.
Proof. apply NoDup_map_inv. Qed.

(** C1 (worker count).  For every range and every driver that is a
    function of the input value, each call of which ends by returning or
    by raising (in particular [run_driver g d] for any globals and any
    deterministic debugger that answers), the sweep completes on one
    worker and on eight; and whatever the two schedules, the points
    recorded on one worker and on eight are the same up to order, namely
    one point for each value on which the driver returns, none lost and
    none twice. *)
Theorem worker_count_irrelevant (driver : Z -> result Z) (lo hi st : Z)
  (values : list Z) :
  range lo hi st = ok values ->
  (exists t1, sweeps driver 1 values t1)
  /\ (exists t8, sweeps driver 8 values t8)
  /\ forall s1 s8,
       sweeps driver 1 values s1 ->
       sweeps driver 8 values s8 ->
       Permutation (points s1) (points s8)
       /\ (forall p, In p (points s1) <-> In p (points s8))
       /\ Permutation (points s8) (collected driver values)
       /\ points s1 = sequential driver values
       /\ NoDup (points s1) /\ NoDup (points s8)
       /\ (forall v r, In v values -> driver v = ok r ->
                       In (v, r) (points s1) /\ In (v, r) (points s8)).
Proof.
  intros R.
  split; [eexists; apply sweep_completes; lia|].
  split; [eexists; apply sweep_completes; lia|].
  intros s1 s8 S1 S8.
  pose proof (sweep_points driver 1 values s1 S1) as P1.
  pose proof (sweep_points driver 8 values s8 S8) as P8.
  assert (P : Permutation (points s1) (points s8))
    by (rewrite P1; symmetry; exact P8).
  assert (N : NoDup (collected driver values))
    by (apply inputs_nodup, collected_nodup, (range_nodup lo hi st), R).
  split; [exact P|].
  split; [intros p; split; apply Permutation_in;
          [exact P | symmetry; exact P]|].
  split; [exact P8|].
  split; [apply single_worker_points; exact S1|].
  split; [apply (Permutation_NoDup (l := collected driver values));
          [symmetry; exact P1 | exact N]|].
  split; [apply (Permutation_NoDup (l := collected driver values));
          [symmetry; exact P8 | exact N]|].
  intros v r I E. pose proof (collected_In driver values v r I E) as C.
  split; eapply Permutation_in; try exact C; symmetry; assumption.
Qed.

Lemma worker_count_irrelevant_witness :
  (exists t1, sweeps doubling 1 [0; 2; 4] t1)
  /\ (exists t8, sweeps doubling 8 [0; 2; 4] t8)
  /\ Permutation [(0, 0); (2, 4); (4, 8)] [(4, 8); (2, 4); (0, 0)].
Proof.
  pose proof (worker_count_irrelevant doubling 0 5 2 [0; 2; 4] eq_refl)
    as (E1 & E8 & H).
  split; [exact E1|]. split; [exact E8|].
  refine (proj1 (H {| queue := []; running := [];
                      points := [(0, 0); (2, 4); (4, 8)] |}
                   {| queue := []; running := [];
                      points := [(4, 8); (2, 4); (0, 0)] |} _ _)).
  - apply (sweep_completes doubling 1 [0; 2; 4]). lia.
  - split; [|split; reflexivity].
    eapply run_step; [apply step_take; simpl; lia|].
    eapply run_step; [apply step_take; simpl; lia|].
    eapply run_step; [apply step_take; simpl; lia|].
    eapply run_step; [apply (step_finish doubling 8 4 [] [] [2; 0] [])|].
    eapply run_step; [apply (step_finish doubling 8 2 [] [] [0] [(4, 8)])|].
    eapply run_step;
      [apply (step_finish doubling 8 0 [] [] [] [(4, 8); (2, 4)])|].
    apply run_done.
Defined.

(** ** A value whose call fails *)

Lemma collected_without (driver : Z -> result Z) (bad : Z) (e : exn)
  (values : list Z) :
  driver bad = raise e ->
  collected driver (without bad values) = collected driver values.
Proof.
  intros F. induction values as [|a l IH]; [reflexivity|].
  rewrite collected_cons. unfold without in *. simpl filter.
  destruct (Z.eqb_spec a bad) as [->|N]; simpl negb; cbv iota.
  - rewrite IH. unfold collected at 2. simpl. now rewrite F.
  - rewrite collected_cons, IH. reflexivity.
Qed.

(** C4, as stated, fails: when the call for 5 dies, the sweep of
    [[0,10]] ends with the points of the nine other values and nothing
    anywhere about 5; what is recorded and shown is exactly what a sweep
    that never tried 5 records and shows. *)
Lemma fault_not_recorded :
  exists s,
    sweeps (run_driver sample_registers crash_on_5) 5
      [0; 1; 2; 3; 4; 5; 6; 7; 8; 9] s
    /\ run_driver sample_registers crash_on_5 5 = raise DebuggerError
    /\ points s = [(0, 42); (1, 42); (2, 42); (3, 42); (4, 42);
                   (6, 42); (7, 42); (8, 42); (9, 42)]
    /\ existsb (Z.eqb 5) (map fst (points s)) = false
    /\ existsb (Z.eqb 5) (map fst (printed (report (points s)))) = false
    /\ points s
       = sequential (run_driver sample_registers crash_on_5)
           [0; 1; 2; 3; 4; 6; 7; 8; 9].
Proof.
  eexists. split; [apply sweep_completes; lia|].
  cbn [points]. repeat split; vm_compute; reflexivity.
Qed.

(** C4 (amended).  When the call for one value fails and the calls for
    the other values return, the sweep still runs to completion and its
    final points hold the point of every other value; the failing value
    is left out: no point carries it, the report does not show it, and
    the points are, up to order, those of a sweep from which the value was
    absent. *)
Theorem failed_value_dropped (driver : Z -> result Z) (n : nat)
  (values : list Z) (bad : Z) (e : exn) :
  (1 <= n)%nat ->
  driver bad = raise e ->
  (forall v, In v values -> v <> bad -> exists r, driver v = ok r) ->
  (exists s, sweeps driver n values s)
  /\ forall s, sweeps driver n values s ->
       (forall v, In v values -> v <> bad ->
                  exists r, driver v = ok r /\ In (v, r) (points s))
       /\ ~ In bad (map fst (points s))
       /\ ~ In bad (map fst (printed (report (points s))))
       /\ Permutation (points s) (collected driver (without bad values))
       /\ forall s', sweeps driver n (without bad values) s' ->
                     Permutation (points s) (points s').
Proof.
  intros Hn F G. split; [eexists; apply sweep_completes; exact Hn|].
  intros s S. pose proof (sweep_points driver n values s S) as P.
  assert (B : ~ In bad (map fst (points s))).
  { intros I. apply (Permutation_in _ (Permutation_map fst P)) in I.
    apply collected_inputs in I. destruct I as [_ [r E]].
    rewrite F in E. discriminate E. }
  split; [|split; [exact B|split; [|split]]].
  - intros v I N. destruct (G v I N) as [r E]. exists r.
    split; [exact E|]. apply (Permutation_in _ (Permutation_sym P)).
    now apply collected_In.
  - intros I. apply B.
    apply (Permutation_in _
             (Permutation_map fst (sorted_by_input_perm (points s)))).
    exact I.
  - now rewrite (collected_without driver bad e values F).
  - intros s' S'. rewrite P.
    rewrite <- (collected_without driver bad e values F).
    symmetry. apply (sweep_points driver n). exact S'.
Qed.

Lemma failed_value_dropped_witness :
  (exists s, sweeps doubling_but_5 3 [4; 5; 6] s)
  /\ forall s, sweeps doubling_but_5 3 [4; 5; 6] s ->
       (forall v, In v [4; 5; 6] -> v <> 5 ->
                  exists r, doubling_but_5 v = ok r /\ In (v, r) (points s))
       /\ ~ In 5 (map fst (points s))
       /\ ~ In 5 (map fst (printed (report (points s))))
       /\ Permutation (points s)
            (collected doubling_but_5 (without 5 [4; 5; 6]))
       /\ forall s', sweeps doubling_but_5 3 (without 5 [4; 5; 6]) s' ->
                     Permutation (points s) (points s').
Proof.
  apply (failed_value_dropped doubling_but_5 3 [4; 5; 6] 5 DebuggerError).
  - lia.
  - reflexivity.
  - intros v I N. simpl in I.
    destruct I as [<-|[<-|[<-|[]]]];
      [exists 8; reflexivity | lia | exists 12; reflexivity].
Defined.

(** * Further properties *)

(** ** More on the range text *)

Lemma split_cons_length (sep c : ascii) (rest : list string) :
  (List.length rest <= List.length (PyStr.split_cons sep c rest))%nat.
Proof.
  unfold PyStr.split_cons. destruct (Ascii.eqb c sep); simpl; [lia|].
  destruct rest; simpl; lia.
Qed.

Lemma split_length_pos (sep : ascii) (s : string) :
  (1 <= List.length (PyStr.split sep s))%nat.
Proof.
  induction s as [|x s IH]; simpl; [lia|].
  pose proof (split_cons_length sep x (PyStr.split sep s)). lia.
Qed.

Lemma split_sep_length (sep : ascii) (a b : string) :
  (2 <= List.length (PyStr.split sep (a +++ String sep b)))%nat.
Proof.
  induction a as [|x a IH].
  - cbn [String.append PyStr.split]. unfold PyStr.split_cons.
    rewrite Ascii.eqb_refl. pose proof (split_length_pos sep b).
    simpl. lia.
  - cbn [String.append PyStr.split].
    pose proof (split_cons_length sep x (PyStr.split sep (a +++ String sep b))).
    lia.
Qed.

Lemma split_head_clean (sep c : ascii) (s : string) :
  PyStr.contains (String c "") s = false ->
  exists v rest, PyStr.split sep s = v :: rest
                 /\ PyStr.contains (String c "") v = false.
Proof.
  induction s as [|a s IH]; intros H.
  - exists "", []. split; reflexivity.
  - rewrite contains_cons in H. apply orb_false_elim in H as [Ha Hs].
    destruct (IH Hs) as (v & rest & E & C). simpl. rewrite E.
    unfold PyStr.split_cons. destruct (Ascii.eqb a sep).
    + exists "", (v :: rest). split; reflexivity.
    + exists (String a v), rest. split; [reflexivity|].
      now rewrite contains_cons, Ha, C.
Qed.

(** X1 (the closing bracket is not checked).  For all integers [lo], [hi]
    and [st], the three-element range text reads as [(lo, hi, st)]
    whatever its last character is, a closing bracket or any other
    character but a comma: line 51 drops that character unseen.  The
    two-element text without its closing bracket reads as [(lo, hi, 1)]. *)
Theorem closing_bracket_unchecked (lo hi st : Z) (c : ascii) :
  Ascii.eqb c "," = false ->
  parse_range ("[" +++ PyStr.str lo +++ "," +++ PyStr.str hi
               +++ "," +++ PyStr.str st +++ String c "")
  = ok (lo, hi, st)
  /\ parse_range ("[" +++ PyStr.str lo +++ "," +++ PyStr.str hi)
     = ok (lo, hi, 1).
Proof.
  intros Hc.
  assert (Cc : PyStr.contains "," (String c "") = false)
    by (rewrite contains_cons, Hc; reflexivity).
  split.
  - unfold parse_range.
    change ("[" +++ PyStr.str lo +++ "," +++ PyStr.str hi
            +++ "," +++ PyStr.str st +++ String c "")
      with (("[" +++ PyStr.str lo)
            +++ String "," (PyStr.str hi
                            +++ String "," (PyStr.str st +++ String c ""))).
    rewrite split_app_sep by (rewrite contains_app, str_no_char; reflexivity).
    rewrite split_app_sep by now apply str_no_char.
    rewrite split_no_sep
      by (rewrite contains_app, str_no_char, Cc; reflexivity).
    cbn [bind ok PyStr.list_item nth_error List.length Nat.eqb].
    unfold PyStr.list_item. rewrite lower_text_str.
    rewrite (str_no_char hi "]"%char) by reflexivity.
    rewrite slice_drop_last. cbn [bind ok]. rewrite !int_str. reflexivity.
  - unfold parse_range.
    change ("[" +++ PyStr.str lo +++ "," +++ PyStr.str hi)
      with (("[" +++ PyStr.str lo) +++ String "," (PyStr.str hi)).
    rewrite split_app_sep by (rewrite contains_app, str_no_char; reflexivity).
    rewrite split_no_sep by now apply str_no_char.
    cbn [bind ok PyStr.list_item nth_error List.length Nat.eqb].
    unfold PyStr.list_item. rewrite lower_text_str.
    rewrite (str_no_char hi "]"%char) by reflexivity.
    cbn [bind ok]. rewrite !int_str. reflexivity.
Qed.

Lemma closing_bracket_unchecked_witness :
  parse_range ("[" +++ PyStr.str 0 +++ "," +++ PyStr.str 101
               +++ "," +++ PyStr.str 5 +++ String ")" "")
  = ok (0, 101, 5).
Proof.
  exact (proj1 (closing_bracket_unchecked 0 101 5 ")" eq_refl)).
Defined.

(** X2 (more than three elements).  When the range text has a fourth
    element, whatever the third and the later elements are, the step is
    not read at all: the text parses with step 1 (line 50 tests for
    exactly three elements). *)
Theorem extra_elements_ignored (lo hi : Z) (st_text rest : string) :
  parse_range ("[" +++ PyStr.str lo +++ "," +++ PyStr.str hi
               +++ "," +++ st_text +++ "," +++ rest)
  = ok (lo, hi, 1).
Proof.
  unfold parse_range.
  change ("[" +++ PyStr.str lo +++ "," +++ PyStr.str hi
          +++ "," +++ st_text +++ "," +++ rest)
    with (("[" +++ PyStr.str lo)
          +++ String "," (PyStr.str hi
                          +++ String "," (st_text +++ String "," rest))).
  rewrite split_app_sep by (rewrite contains_app, str_no_char; reflexivity).
  rewrite split_app_sep by now apply str_no_char.
  pose proof (split_sep_length "," st_text rest) as L.
  destruct (PyStr.split "," (st_text +++ String "," rest)) as [|v2 [|v3 tl]];
    simpl in L; try lia.
  cbn [bind ok PyStr.list_item nth_error List.length Nat.eqb].
  unfold PyStr.list_item. rewrite lower_text_str.
  rewrite (str_no_char hi "]"%char) by reflexivity.
  cbn [bind ok]. rewrite !int_str. reflexivity.
Qed.

(** X3 (range text that cannot be read).  A range text without an opening
    bracket raises [IndexError]; a range text without a comma never
    parses: it raises [IndexError] or, when what follows the bracket is
    not a number, [ValueError]. *)
Theorem malformed_range_text (r : string) :
  (PyStr.contains "[" r = false -> parse_range r = raise IndexError)
  /\ (PyStr.contains "," r = false ->
      parse_range r = raise IndexError \/ parse_range r = raise ValueError).
Proof.
  split; intros H.
  - unfold parse_range.
    destruct (split_head_clean "," "[" r H) as (v & rest & E & C).
    rewrite E. cbn [bind ok PyStr.list_item nth_error].
    rewrite (split_no_sep "[" v C). reflexivity.
  - unfold parse_range. rewrite (split_no_sep "," r H).
    cbn [bind ok PyStr.list_item nth_error List.length Nat.eqb].
    unfold PyStr.list_item.
    destruct (nth_error (PyStr.split "[" r) 1) as [t|]; [|left; reflexivity].
    cbn [bind ok]. unfold PyStr.int.
    destruct (match PyStr.int_trim t with
              | String "+" r0 => (false, r0)
              | String "-" r0 => (true, r0)
              | _ => (false, PyStr.int_trim t)
              end) as [neg s2].
    destruct (PyStr.digits 10 (if 10 =? 16 then PyStr.skip_hex_prefix s2 else s2));
      [left | right]; reflexivity.
Qed.

Lemma malformed_range_text_witness :
  parse_range "0,10" = raise IndexError
  /\ (parse_range "[5" = raise IndexError
      \/ parse_range "[5" = raise ValueError).
Proof.
  split.
  - exact (proj1 (malformed_range_text "0,10") eq_refl).
  - exact (proj2 (malformed_range_text "[5") eq_refl).
Defined.

(** ** More on [range] *)

Lemma progression_member (lo st : Z) (n : nat) (x : Z) :
  In x (progression lo st 0 n)
  <-> exists q, 0 <= q < Z.of_nat n /\ x = lo + q * st.
Proof.
  split.
  - intros H. apply progression_In in H. destruct H as [i [Hi ->]].
    exists (Z.of_nat i). split; [lia | reflexivity].
  - intros [q [Hq ->]]. unfold progression. apply in_map_iff.
    exists (Z.to_nat q). split; [rewrite Z2Nat.id by lia; reflexivity|].
    apply in_seq. lia.
Qed.

(** X4 (the values swept).  For a positive step, [range] holds exactly the
    values from [lo] up to but not including [hi] that differ from [lo]
    by a multiple of the step; for a negative step, exactly the values
    from [lo] down to but not including [hi] that differ from [lo] by a
    multiple of the step. *)
Theorem range_members (lo hi st x : Z) (l : list Z) :
  range lo hi st = ok l ->
  (In x l <->
   (0 < st /\ lo <= x < hi /\ (x - lo) mod st = 0)
   \/ (st < 0 /\ hi < x <= lo /\ (lo - x) mod (- st) = 0)).
Proof.
  intros R. destruct (Z.eq_dec st 0) as [->|N]; [discriminate R|].
  rewrite range_progression in R by exact N. injection R as <-.
  rewrite progression_member.
  pose proof (range_len_nonneg lo hi st) as L0.
  rewrite Z2Nat.id by exact L0.
  unfold range_len in *.
  destruct (Z.ltb_spec 0 st) as [P|P].
  - destruct (Z.ltb_spec lo hi) as [B|B].
    + pose proof (Z.mul_div_le (hi - lo - 1) st P) as D1.
      pose proof (Z.mul_succ_div_gt (hi - lo - 1) st P) as D2.
      split.
      * intros [q [Hq ->]]. left. split; [exact P|]. split; [nia|].
        replace (lo + q * st - lo) with (q * st) by lia.
        apply Z.mod_mul. lia.
      * intros [[_ [Hx M]]|[F _]]; [|lia].
        exists ((x - lo) / st).
        pose proof (Z.div_mod (x - lo) st) as E. rewrite M in E.
        assert (0 <= (x - lo) / st) by (apply Z.div_pos; lia).
        split; [|lia]. split; [lia|]. nia.
    + split.
      * intros [q [Hq _]]. lia.
      * intros [[_ [Hx _]]|[F _]]; lia.
  - assert (S : st < 0) by lia. assert (P' : 0 < - st) by lia.
    destruct (Z.ltb_spec hi lo) as [B|B].
    + pose proof (Z.mul_div_le (lo - hi - 1) (- st) P') as D1.
      pose proof (Z.mul_succ_div_gt (lo - hi - 1) (- st) P') as D2.
      split.
      * intros [q [Hq ->]]. right. split; [exact S|]. split; [nia|].
        replace (lo - (lo + q * st)) with (q * - st) by lia.
        apply Z.mod_mul. lia.
      * intros [[F _]|[_ [Hx M]]]; [lia|].
        exists ((lo - x) / (- st)).
        pose proof (Z.div_mod (lo - x) (- st)) as E. rewrite M in E.
        assert (0 <= (lo - x) / (- st)) by (apply Z.div_pos; lia).
        split; [|lia]. split; [lia|]. nia.
    + split.
      * intros [q [Hq _]]. lia.
      * intros [[F _]|[_ [Hx _]]]; lia.
Qed.

Lemma range_members_witness :
  In 95 [0; 5; 10; 15; 20; 25; 30; 35; 40; 45; 50; 55; 60; 65; 70; 75; 80;
         85; 90; 95; 100]
  <-> (0 < 5 /\ 0 <= 95 < 101 /\ (95 - 0) mod 5 = 0)
      \/ (5 < 0 /\ 101 < 95 <= 0 /\ (0 - 95) mod (- 5) = 0).
Proof. exact (range_members 0 101 5 95 _ eq_refl). Defined.

(** ** More on location descriptors *)

Lemma text_snoc (s : string) :
  s <> "" -> exists t c, s = t +++ String c "".
Proof.
  induction s as [|a s IH]; intros N; [congruence|].
  destruct s as [|b s].
  - exists "", a. reflexivity.
  - assert (Nb : String b s <> "") by discriminate.
    destruct (IH Nb) as (t & c & E).
    exists (String a t), c. simpl. now rewrite <- E.
Qed.

Lemma startswith_m_bracket (s : string) :
  PyStr.startswith s "m[" = true -> exists r, s = "m[" +++ r.
Proof.
  unfold PyStr.startswith. intros H.
  destruct s as [|a [|b r]]; cbn [String.prefix] in H; try discriminate H.
  - destruct (ascii_dec "m" a); discriminate H.
  - destruct (ascii_dec "m" a) as [<-|]; [|discriminate H].
    destruct (ascii_dec "[" b) as [<-|]; [|discriminate H].
    exists r. reflexivity.
Qed.

Lemma parse_memory_text (e : string) :
  parse_location ("m[" +++ e +++ "]") = ok (Memory e).
Proof.
  unfold parse_location, parse_descriptor.
  rewrite (startswith_app "m[" (e +++ "]")).
  change ("m[" +++ e +++ "]") with (("m[" +++ e) +++ String "]" "") at 1.
  rewrite item_last. cbn [bind ok]. rewrite Ascii.eqb_refl.
  cbn [bind ok]. unfold location_of. cbn [fst snd]. do 2 f_equal.
  change ("m[" +++ e +++ "]") with (String "m" (String "[" (e +++ "]"))).
  unfold PyStr.slice, PyStr.clip. simpl String.length.
  rewrite text_length_app. simpl String.length.
  replace (2 <? 0) with false by reflexivity.
  replace (-1 <? 0) with true by reflexivity.
  set (n := String.length e).
  replace (Z.min _ 2) with 2 by lia.
  replace (Z.to_nat 2) with 2%nat by reflexivity.
  replace (Z.to_nat _) with n by lia.
  simpl String.substring. apply substring_whole_prefix.
Qed.

(** X5 (what a classification tells).  A descriptor classified as a
    memory location with expression [e] is exactly [m[] followed by [e]
    and a closing bracket, and a descriptor classified as a register is
    its own name, unchanged: the parser strips the wrapper and nothing
    else. *)
Theorem location_inversion (s : string) :
  (forall e, parse_location s = ok (Memory e) <-> s = "m[" +++ e +++ "]")
  /\ (forall n, parse_location s = ok (Register n) ->
                n = s /\ forall e, s <> "m[" +++ e +++ "]").
Proof.
  assert (F : forall e, s = "m[" +++ e +++ "]" ->
                        parse_location s = ok (Memory e)).
  { intros e ->. apply parse_memory_text. }
  assert (M : forall e, parse_location s = ok (Memory e) ->
                        s = "m[" +++ e +++ "]").
  { intros e H. pose proof H as H'.
    unfold parse_location, parse_descriptor in H'.
    destruct (PyStr.startswith s "m[") eqn:P; [|discriminate H'].
    destruct (PyStr.item s (-1)) as [x|c] eqn:I; [discriminate H'|].
    cbn [bind ok] in H'.
    destruct (Ascii.eqb_spec c "]") as [->|Nc]; [|discriminate H'].
    clear H'. destruct (startswith_m_bracket s P) as [r ->].
    destruct r as [|a r']; [discriminate I|].
    assert (Nr : String a r' <> "") by discriminate.
    destruct (text_snoc (String a r') Nr) as (e' & c' & E).
    rewrite E in *.
    change ("m[" +++ e' +++ String c' "")
      with (("m[" +++ e') +++ String c' "") in I.
    rewrite item_last in I. injection I as ->.
    rewrite parse_memory_text in H. injection H as <-. reflexivity. }
  split.
  - intros e. split; [apply M | apply F].
  - intros n H. split.
    + unfold parse_location, parse_descriptor in H.
      destruct (PyStr.startswith s "m["); [|injection H as <-; reflexivity].
      destruct (PyStr.item s (-1)) as [x|c]; [discriminate H|].
      cbn [bind ok] in H.
      destruct (Ascii.eqb c "]"); [discriminate H|].
      injection H as <-. reflexivity.
    + intros e E. rewrite (F e E) in H. discriminate H.
Qed.

Lemma location_inversion_witness :
  "m[rsp+4]" = "m[" +++ "rsp+4" +++ "]".
Proof.
  exact (proj1 (proj1 (location_inversion "m[rsp+4]") "rsp+4") eq_refl).
Defined.

(** ** The text written for the input value *)

Lemma hex_chars (d : Hexadecimal.uint) :
  all_chars is_hex (HexadecimalString.NilEmpty.string_of_uint d) = true.
Proof. induction d; simpl; auto. Qed.

Lemma hex_is_plain (c : ascii) : is_hex c = true -> is_plain c = true.
Proof.
  destruct c as [[] [] [] [] [] [] [] []]; intros H;
    solve [reflexivity | discriminate H].
Qed.

Ltac hex_step IH :=
  cbn [HexadecimalString.NilEmpty.string_of_uint Pos.of_hex_uint_acc
       Pos.of_hex_uint];
  match goal with
  | |- PyStr.digits_from 16 _ false (String ?c _) = _ =>
      let k := eval vm_compute in
        (match PyStr.digit_value c with Some k => k | None => 0 end) in
      rewrite (digits_from_digit 16 _ k c) by reflexivity
  end;
  match goal with
  | |- PyStr.digits_from 16 ?a false _
       = Some (Z.pos (Pos.of_hex_uint_acc _ ?b)) =>
      replace a with (Z.pos b) by lia; apply IH
  end.

Lemma hex_digits_from_acc (d : Hexadecimal.uint) (acc : positive) :
  PyStr.digits_from 16 (Z.pos acc) false
    (HexadecimalString.NilEmpty.string_of_uint d)
  = Some (Z.pos (Pos.of_hex_uint_acc d acc)).
Proof.
  revert acc. induction d; intros acc; [reflexivity|..]; hex_step IHd.
Qed.

Lemma hex_digits_from_zero (d : Hexadecimal.uint) :
  PyStr.digits_from 16 0 false (HexadecimalString.NilEmpty.string_of_uint d)
  = Some (Z.of_N (Pos.of_hex_uint d)).
Proof.
  induction d; [reflexivity | exact IHd | ..];
    cbn [HexadecimalString.NilEmpty.string_of_uint Pos.of_hex_uint Z.of_N];
    hex_step hex_digits_from_acc.
Qed.

(** The digits [hex] writes for a positive number. *)
Lemma hex_body (p : positive) :
  HexadecimalString.NilZero.string_of_uint
    (N.to_hex_uint (Z.to_N (Z.abs (Z.pos p))))
  = HexadecimalString.NilEmpty.string_of_uint (Pos.to_hex_uint p)
  /\ HexadecimalString.NilZero.string_of_uint
       (N.to_hex_uint (Z.to_N (Z.abs (Z.neg p))))
     = HexadecimalString.NilEmpty.string_of_uint (Pos.to_hex_uint p).
Proof.
  pose proof (HexadecimalPos.Unsigned.to_uint_nonnil p) as N.
  cbn [Z.abs Z.to_N N.to_hex_uint].
  unfold HexadecimalString.NilZero.string_of_uint.
  destruct (Pos.to_hex_uint p); [contradiction|..]; split; reflexivity.
Qed.

Lemma int_hex_body (p : positive) :
  PyStr.int 16
    (String "0" (String "x"
       (HexadecimalString.NilEmpty.string_of_uint (Pos.to_hex_uint p))))
  = ok (Z.pos p).
Proof.
  pose proof (HexadecimalPos.Unsigned.to_uint_nonnil p) as N.
  pose proof (HexadecimalPos.Unsigned.of_to p) as E.
  pose proof (hex_digits_from_zero (Pos.to_hex_uint p)) as D.
  rewrite E in D. change (Z.of_N (N.pos p)) with (Z.pos p) in D.
  pose proof (hex_chars (Pos.to_hex_uint p)) as C.
  set (body := HexadecimalString.NilEmpty.string_of_uint (Pos.to_hex_uint p))
    in *.
  assert (P : all_chars is_plain (String "0" (String "x" body)) = true)
    by exact (all_chars_impl _ _ _ hex_is_plain C).
  unfold PyStr.int. rewrite (int_trim_plain _ P).
  cbv beta iota zeta. replace (16 =? 16) with true by reflexivity.
  assert (B : exists c r, body = String c r /\ is_hex c = true).
  { unfold body in *. destruct (Pos.to_hex_uint p); [contradiction|..];
      eexists; eexists; (split; [reflexivity|reflexivity]). }
  destruct B as (c & r & Eb & Hc). rewrite Eb in *.
  assert (U : Ascii.eqb c PyStr.underscore = false).
  { destruct c as [[] [] [] [] [] [] [] []];
      solve [reflexivity | discriminate Hc]. }
  unfold PyStr.skip_hex_prefix.
  replace (Ascii.eqb "x" "x" || Ascii.eqb "x" "X") with true by reflexivity.
  rewrite U. unfold PyStr.digits. rewrite U, D. reflexivity.
Qed.

(** X6 (the text written for a value that is not negative).  For every
    value that is not negative, the text that line 88 writes after [wB ]
    is a base-16 numeral that reads back as the value itself: no digit of
    the value is dropped, however large the value is. *)
Theorem written_text_reads_back (value : Z) :
  0 <= value ->
  PyStr.int 16 ("0x" +++ PyStr.slice (PyStr.hex value) (Some 2) None)
  = ok value.
Proof.
  intros H. rewrite (hex_value_whole value H).
  destruct value as [|p|p]; [reflexivity | | lia].
  unfold PyStr.hex. replace (Z.pos p <? 0) with false by reflexivity.
  rewrite (proj1 (hex_body p)). apply int_hex_body.
Qed.

Lemma written_text_reads_back_witness :
  PyStr.int 16 ("0x" +++ PyStr.slice (PyStr.hex 256) (Some 2) None) = ok 256.
Proof. apply (written_text_reads_back 256). lia. Defined.

(** X7 (the text written for a negative value).  For a negative value,
    [hex(value)] begins with a minus sign, so dropping its first two
    characters leaves an [x] in front of the digits of the absolute value:
    the sign is lost, and what line 88 writes after [wB ] is not a
    numeral at all. *)
Theorem negative_value_text (value : Z) :
  value < 0 ->
  PyStr.slice (PyStr.hex value) (Some 2) None
  = "x" +++ PyStr.slice (PyStr.hex (- value)) (Some 2) None
  /\ PyStr.int 16 ("0x" +++ PyStr.slice (PyStr.hex value) (Some 2) None)
     = raise ValueError.
Proof.
  intros H. destruct value as [|p|p]; try lia.
  assert (E : PyStr.slice (PyStr.hex (Z.neg p)) (Some 2) None
              = "x" +++ PyStr.slice (PyStr.hex (- Z.neg p)) (Some 2) None).
  { unfold PyStr.hex. cbn [Z.opp].
    replace (Z.neg p <? 0) with true by reflexivity.
    replace (Z.pos p <? 0) with false by reflexivity.
    rewrite (proj1 (hex_body p)), (proj2 (hex_body p)).
    cbn [String.append]. now rewrite !slice_from_2. }
  split; [exact E|]. rewrite E.
  unfold PyStr.hex. cbn [Z.opp].
  replace (Z.pos p <? 0) with false by reflexivity.
  rewrite (proj1 (hex_body p)). cbn [String.append]. rewrite slice_from_2.
  pose proof (hex_chars (Pos.to_hex_uint p)) as C.
  set (body := HexadecimalString.NilEmpty.string_of_uint (Pos.to_hex_uint p))
    in *.
  assert (P : all_chars is_plain (String "0" (String "x" (String "x" body)))
              = true)
    by exact (all_chars_impl _ _ _ hex_is_plain C).
  unfold PyStr.int. rewrite (int_trim_plain _ P). reflexivity.
Qed.

Lemma negative_value_text_witness :
  PyStr.slice (PyStr.hex (-5)) (Some 2) None
  = "x" +++ PyStr.slice (PyStr.hex (- -5)) (Some 2) None
  /\ PyStr.int 16 ("0x" +++ PyStr.slice (PyStr.hex (-5)) (Some 2) None)
     = raise ValueError.
Proof. apply (negative_value_text (-5)). lia. Defined.

(** ** More on one call of [execute] *)

(** X8 (injection into a register).  For a register input, what a call
    does to the debugger is always a beginning of one fixed script, in
    which the injection is the single command setting the register to
    the decimal text of the value, sign included; that text reads back as
    the value.  Against any debugger that answers every command, with
    whatever text, the call sends the whole script and records a point
    exactly when the answer to the last command reads as a base-16
    number. *)
Theorem register_injection (g : Globals) (d : debugger) (value : Z)
  (pts : list (Z * Z)) :
  bruteforceIsMem g = false ->
  injection g value
  = [Cmd ("dr " +++ bruteforce g +++ " = " +++ PyStr.str value)]
  /\ PyStr.int 10 (PyStr.str value) = ok value
  /\ (exists rest,
        script g value = trace_of (execute g d value pts) ++ rest)
  /\ (ready g -> responsive d ->
      exists s,
        reply d (sent (script g value)) = ok s
        /\ execute g d value pts
           = match read_output g s with
             | inr r => (ok tt, script g value, pts ++ [(value, r)])
             | inl e => (raise e, script g value, pts)
             end).
Proof.
  intros M. split; [|split; [|split]].
  - unfold injection. now rewrite M.
  - apply int_str.
  - rewrite execute_trace.
    destruct (execute_session_plays g d value []) as (dn & rest & E & L & _).
    exists rest. rewrite E. exact L.
  - apply execute_responsive.
Qed.

Lemma sample_registers_ready : ready sample_registers.
Proof. repeat split; discriminate. Qed.

Lemma register_injection_witness :
  injection sample_registers (-3)
  = [Cmd ("dr " +++ bruteforce sample_registers
          +++ " = " +++ PyStr.str (-3))]
  /\ exists s,
       reply constant_debugger (sent (script sample_registers (-3))) = ok s
       /\ execute sample_registers constant_debugger (-3) []
          = match read_output sample_registers s with
            | inr r => (ok tt, script sample_registers (-3),
                        [] ++ [(-3, r)])
            | inl e => (raise e, script sample_registers (-3), [])
            end.
Proof.
  destruct (register_injection sample_registers constant_debugger (-3) []
              eq_refl) as (I & _ & _ & R).
  split; [exact I|].
  exact (R sample_registers_ready constant_debugger_responsive).
Defined.

Lemma sbind_ok {A B : Type} (m : Session A) (k : A -> Session B)
  (t : list event) (r : B) :
  fst (sbind m k t) = ok r ->
  exists a t', m t = (ok a, t') /\ sbind m k t = k a t'.
Proof.
  unfold sbind. destruct (m t) as [[e|a] t']; cbn [fst]; intros H;
    [discriminate H|]. exists a, t'. split; reflexivity.
Qed.

Ltac step_ok H :=
  let a := fresh "a" in
  let t := fresh "t" in
  let E := fresh "E" in
  let F := fresh "F" in
  destruct (sbind_ok _ _ _ _ H) as (a & t & E & F);
  rewrite F in H |- *; clear F; cbv beta in H |- *.

Lemma sent_last (t : list event) (c : string) :
  last (sent (t ++ [Cmd c])) "" = c.
Proof. unfold sent. rewrite flat_map_app. simpl. apply last_last. Qed.

(** X9 (where the recorded output comes from).  Whenever a call records
    an output, the last command it sent is the one reading the output
    location, the debugger answered that command, and the output recorded
    is that answer read in base 16 (after stripping white space, for a
    register). *)
Theorem recorded_output_is_last_answer (g : Globals) (d : debugger)
  (value r : Z) :
  run_driver g d value = ok r ->
  let t := snd (execute_session g d value []) in
  exists s,
    last (sent t) "" = read_command g
    /\ reply d (sent t) = ok s
    /\ (if outputIsMem g then PyStr.int 16 s
        else PyStr.int 16 (PyStr.strip s)) = ok r.
Proof.
  unfold run_driver, execute_session, read_command.
  intros H. cbv zeta.
  do 7 (step_ok H; clear E).
  destruct (outputIsMem g).
  - step_ok H. unfold lift in E. injection E as E <-.
    destruct (output_length g) as [w|]; [|discriminate E].
    injection E as <-.
    step_ok H. unfold cmd in E. injection E as E <-.
    cbn [lift fst snd text] in H |- *.
    eexists. rewrite sent_last. split; [reflexivity|]. split; eassumption.
  - step_ok H. unfold cmd in E. injection E as E <-.
    cbn [lift fst snd] in H |- *.
    eexists. rewrite sent_last. split; [reflexivity|]. split; eassumption.
Qed.

Lemma recorded_output_is_last_answer_witness :
  exists s,
    last (sent (snd (execute_session sample_registers constant_debugger 7 [])))
         ""
    = read_command sample_registers
    /\ reply constant_debugger
         (sent (snd (execute_session sample_registers constant_debugger 7 [])))
       = ok s
    /\ PyStr.int 16 (PyStr.strip s) = ok 42.
Proof.
  exact (recorded_output_is_last_answer sample_registers constant_debugger
           7 42 eq_refl).
Defined.

Lemma snoc_split {A : Type} (h p q : list A) (c c' : A) :
  h ++ [c] = p ++ c' :: q ->
  (q = [] /\ h = p /\ c = c')
  \/ exists q', q = q' ++ [c] /\ h = p ++ c' :: q'.
Proof.
  intros E. destruct q as [|x q0].
  - left. apply app_inj_tail in E. tauto.
  - right. destruct (@exists_last _ (x :: q0)) as (q' & a & Eq);
      [discriminate|].
    rewrite Eq in *. exists q'.
    change (p ++ c' :: q' ++ [a]) with (p ++ (c' :: q') ++ [a]) in E.
    rewrite app_assoc in E. apply app_inj_tail in E. destruct E as [-> ->].
    split; reflexivity.
Qed.

Lemma all_answered_weaken (d : debugger) (h : list string) :
  all_answered d h -> answered_before_last d h.
Proof. intros H p c q E _. exact (H p c q E). Qed.

Lemma stops_ret {A : Type} (d : debugger) (a : A) : stops_at_failure d (ret a).
Proof. intros t H. exact H. Qed.

Lemma stops_lift {A : Type} (d : debugger) (r : result A) :
  stops_at_failure d (lift r).
Proof.
  intros t H. simpl. destruct r; [now apply all_answered_weaken | exact H].
Qed.

Lemma sent_snoc (t : list event) (c : string) :
  sent (t ++ [Cmd c]) = sent t ++ [c].
Proof. unfold sent. now rewrite flat_map_app. Qed.

Lemma stops_cmd (d : debugger) (c : string) : stops_at_failure d (cmd d c).
Proof.
  intros t H. unfold cmd. cbn [fst snd]. rewrite sent_snoc.
  destruct (reply d (sent t ++ [c])) as [e|s] eqn:R.
  - intros p c' q E N.
    destruct (snoc_split _ _ _ _ _ E) as [[Q _]|(q' & _ & E')];
      [contradiction|]. exact (H p c' q' E').
  - intros p c' q E.
    destruct (snoc_split _ _ _ _ _ E) as [(_ & <- & <-)|(q' & _ & E')].
    + exists s. exact R.
    + exact (H p c' q' E').
Qed.

Lemma stops_open (d : debugger) (f : string) (fl : list string) :
  stops_at_failure d (r2_open d f fl).
Proof.
  intros t H. unfold r2_open. cbn [fst snd].
  assert (E : sent (t ++ [Open f fl]) = sent t).
  { unfold sent. rewrite flat_map_app. simpl. apply app_nil_r. }
  rewrite E. destruct (launch d f); [exact H|].
  now apply all_answered_weaken.
Qed.

Lemma stops_cmd_value (d : debugger) (x : option string) :
  stops_at_failure d (cmd_value d x).
Proof. destruct x; [apply stops_cmd | apply stops_lift]. Qed.

Lemma stops_bind {A B : Type} (d : debugger) (m : Session A)
  (k : A -> Session B) :
  stops_at_failure d m -> (forall a, stops_at_failure d (k a)) ->
  stops_at_failure d (sbind m k).
Proof.
  intros Hm Hk t H. unfold sbind. specialize (Hm t H).
  destruct (m t) as [[e|a] t']; cbn [fst snd] in *; [exact Hm|].
  exact (Hk a t' Hm).
Qed.

Ltac stops :=
  cbv beta zeta;
  repeat match goal with
    | |- stops_at_failure _ (sbind _ _) =>
        apply stops_bind; [|intros ?; cbv beta zeta]
    | |- stops_at_failure _ (cmd _ _) => apply stops_cmd
    | |- stops_at_failure _ (cmd_value _ _) => apply stops_cmd_value
    | |- stops_at_failure _ (r2_open _ _ _) => apply stops_open
    | |- stops_at_failure _ (ret _) => apply stops_ret
    | |- stops_at_failure _ (lift _) => apply stops_lift
    | |- stops_at_failure _ (if ?b then _ else _) => destruct b
    end.

Lemma execute_session_stops (g : Globals) (d : debugger) (value : Z) :
  stops_at_failure d (execute_session g d value).
Proof. unfold execute_session. stops. Qed.

(** X10 (nothing is sent after a failure).  In every call, each command
    that was followed by another command had been answered by the
    debugger without an exception: once a command fails the call sends
    nothing more.  When the call records a point, every command it sent
    was answered. *)
Theorem no_command_after_failure (g : Globals) (d : debugger) (value : Z)
  (pts : list (Z * Z)) :
  (forall p c q,
      sent (trace_of (execute g d value pts)) = p ++ c :: q -> q <> [] ->
      exists s, reply d (p ++ [c]) = ok s)
  /\ (outcome_of (execute g d value pts) = ok tt ->
      forall p c q,
        sent (trace_of (execute g d value pts)) = p ++ c :: q ->
        exists s, reply d (p ++ [c]) = ok s).
Proof.
  assert (H0 : all_answered d (sent [])).
  { intros p c q E. destruct p; discriminate E. }
  pose proof (execute_session_stops g d value [] H0) as S.
  unfold execute, trace_of, outcome_of.
  destruct (execute_session g d value []) as [[e|r] t]; cbn [fst snd] in *.
  - split; [exact S | discriminate].
  - split; [now apply all_answered_weaken | intros _; exact S].
Qed.

Lemma no_command_after_failure_witness :
  exists s,
    reply dying_debugger (["doo;db 0x1160"] ++ ["db 0x1149;dc"]) = ok s.
Proof.
  apply (proj1 (no_command_after_failure sample_registers dying_debugger
                  7 []) ["doo;db 0x1160"] "db 0x1149;dc"
                  [""; "dr eax = 7"; "dc"]).
  - reflexivity.
  - discriminate.
Defined.

(** ** More on the thread pool *)

Section PoolMore.

Variable driver : Z -> result Z.
Variable max_workers : nat.

Lemma step_bound (s s' : pool) :
  pool_step driver max_workers s s' ->
  (List.length (running s) <= max_workers)%nat ->
  (List.length (running s') <= max_workers)%nat.
Proof.
  intros St.
  destruct (pool_step_cases _ _ _ _ St)
    as [(v & q & r & p & L & -> & ->)|(v & q & r1 & r2 & p & -> & ->)];
    cbn [running]; intros H.
  - simpl. lia.
  - rewrite List.length_app in *. simpl in H. lia.
Qed.

Lemma run_bound (s s' : pool) :
  pool_run driver max_workers s s' ->
  (List.length (running s) <= max_workers)%nat ->
  (List.length (running s') <= max_workers)%nat.
Proof.
  induction 1 as [|s1 s2 s3 St _ IH]; intros H; [exact H|].
  apply IH. exact (step_bound s1 s2 St H).
Qed.

Lemma step_appends (s s' : pool) :
  pool_step driver max_workers s s' ->
  exists more, points s' = points s ++ more
               /\ (List.length more <= 1)%nat.
Proof.
  intros St.
  destruct (pool_step_cases _ _ _ _ St)
    as [(v & q & r & p & L & -> & ->)|(v & q & r1 & r2 & p & -> & ->)]; cbn [points].
  - exists []. split; [now rewrite app_nil_r | simpl; lia].
  - exists (collected driver [v]). split; [apply worker_app|].
    unfold collected. simpl. destruct (driver v); simpl; lia.
Qed.

Lemma run_appends (s s' : pool) :
  pool_run driver max_workers s s' ->
  exists more, points s' = points s ++ more.
Proof.
  induction 1 as [|s1 s2 s3 St _ IH]; [exists []; now rewrite app_nil_r|].
  destruct (step_appends s1 s2 St) as (m1 & E1 & _).
  destruct IH as (m2 & E2). exists (m1 ++ m2).
  now rewrite E2, E1, app_assoc.
Qed.

Lemma collected_member (values : list Z) (v r : Z) :
  In (v, r) (collected driver values) -> In v values /\ driver v = ok r.
Proof.
  unfold collected. rewrite in_flat_map. intros (x & I & H).
  destruct (driver x) as [e|y] eqn:E; simpl in H; [tauto|].
  destruct H as [H|[]]. injection H as <- <-. auto.
Qed.

End PoolMore.

(** X11 (never more calls in flight than workers).  At every moment of a
    sweep, the number of calls in flight is at most the size of the
    pool. *)
Theorem in_flight_bounded (driver : Z -> result Z) (max_workers : nat)
  (values : list Z) (s : pool) :
  pool_run driver max_workers (submitted values) s ->
  (List.length (running s) <= max_workers)%nat.
Proof.
  intros R. apply (run_bound driver max_workers _ _ R). simpl. lia.
Qed.

Lemma in_flight_bounded_witness :
  Nat.le
    (List.length (running {| queue := [3]; running := [2; 1]; points := [] |}))
    2.
Proof.
  apply (in_flight_bounded doubling 2 [1; 2; 3]).
  eapply run_step; [apply step_take; simpl; lia|].
  eapply run_step; [apply step_take; simpl; lia|].
  apply run_done.
Defined.

(** X12 (the list of points only grows).  Whatever the pool does between
    two moments of a sweep, the points present at the earlier moment are
    still there at the later one, in the same order, at the front of the
    list: points are only ever appended. *)
Theorem points_only_appended (driver : Z -> result Z) (max_workers : nat)
  (s s' : pool) :
  pool_run driver max_workers s s' ->
  exists more, points s' = points s ++ more.
Proof. apply run_appends. Qed.

Lemma points_only_appended_witness :
  exists more,
    points {| queue := []; running := []; points := [(1, 2); (3, 6)] |}
    = points {| queue := [3]; running := []; points := [(1, 2)] |} ++ more.
Proof.
  apply (points_only_appended doubling 1).
  eapply run_step; [apply step_take; simpl; lia|].
  eapply run_step; [apply (step_finish doubling 1 3 [] [] [] [(1, 2)])|].
  apply run_done.
Defined.

Section PoolCalls.

Variable call : Z -> option (result Z).
Variable max_workers : nat.

Lemma move_work (s s' : pool) :
  pool_move call max_workers s s' -> work_left s = S (work_left s').
Proof.
  intros [v q r p L|v res q r1 r2 p E]; unfold work_left; cbn [queue running].
  - simpl. lia.
  - rewrite !List.length_app. simpl. lia.
Qed.

Lemma moves_steps_work (k : nat) (s s' : pool) :
  pool_moves_steps call max_workers k s s' ->
  work_left s = (k + work_left s')%nat.
Proof.
  induction 1 as [|k s1 s2 s3 M _ IH]; [reflexivity|].
  rewrite (move_work s1 s2 M), IH. reflexivity.
Qed.

Lemma move_all_end (s s' : pool) :
  pool_move call max_workers s s' ->
  all_end call max_workers s -> all_end call max_workers s'.
Proof.
  intros [v q r p L|v res q r1 r2 p E]; unfold all_end; cbn [queue running];
    intros [B H].
  - split; [simpl; lia|]. intros x I. apply H.
    rewrite in_app_iff in *. simpl in *. tauto.
  - split; [rewrite List.length_app in *; simpl in B; lia|].
    intros x I. apply H. rewrite !in_app_iff in *. simpl. tauto.
Qed.

Lemma moves_all_end (s s' : pool) :
  pool_moves call max_workers s s' ->
  all_end call max_workers s -> all_end call max_workers s'.
Proof.
  induction 1 as [|s1 s2 s3 M _ IH]; intros A; [exact A|].
  apply IH. exact (move_all_end s1 s2 M A).
Qed.

Lemma all_end_moves (s : pool) :
  (1 <= max_workers)%nat -> all_end call max_workers s -> ~ drained s ->
  exists s', pool_move call max_workers s s'.
Proof.
  intros Hn [B H] Nd. destruct s as [q r p]. cbn [queue running] in *.
  destruct r as [|v r].
  - destruct q as [|v q]; [exfalso; apply Nd; split; reflexivity|].
    eexists. apply move_take. simpl. lia.
  - destruct (call v) as [res|] eqn:E.
    + eexists. exact (move_finish call max_workers v res q [] r p E).
    + exfalso. apply (H v); [|exact E]. rewrite in_app_iff. simpl. tauto.
Qed.

Lemma all_end_drains (m : nat) (s : pool) :
  (1 <= max_workers)%nat -> work_left s = m -> all_end call max_workers s ->
  exists s', pool_moves call max_workers s s' /\ drained s'.
Proof.
  intros Hn. revert s. induction m as [|m IH]; intros s W A.
  - exists s. split; [constructor|]. unfold work_left in W.
    destruct s as [[|? ?] [|? ?] p]; simpl in W; try lia.
    split; reflexivity.
  - assert (Nd : ~ drained s).
    { intros [Q R]. unfold work_left in W. rewrite Q, R in W.
      simpl in W. lia. }
    destruct (all_end_moves s Hn A Nd) as [s1 M].
    pose proof (move_work s s1 M) as W1.
    destruct (IH s1 ltac:(lia) (move_all_end s s1 M A)) as (s' & R & D).
    exists s'. split; [|exact D].
    exact (moves_step call max_workers s s1 s' M R).
Qed.

(** A value whose call never ends stays queued or in flight. *)
Lemma move_keeps_stalled (v : Z) (s s' : pool) :
  call v = None ->
  pool_move call max_workers s s' ->
  In v (queue s ++ running s) -> In v (queue s' ++ running s').
Proof.
  intros N [x q r p L|x res q r1 r2 p E]; cbn [queue running];
    rewrite !in_app_iff; simpl.
  - tauto.
  - intros [I|[I|[I|I]]]; auto. subst x. rewrite N in E. discriminate E.
Qed.

Lemma moves_keep_stalled (v : Z) (s s' : pool) :
  call v = None ->
  pool_moves call max_workers s s' ->
  In v (queue s ++ running s) -> In v (queue s' ++ running s').
Proof.
  intros N. induction 1 as [|s1 s2 s3 M _ IH]; intros I; [exact I|].
  apply IH. exact (move_keeps_stalled v s1 s2 N M I).
Qed.

End PoolCalls.

(** X13 (when the sweep ends).  A call waits for the debugger without any
    time limit, so it may never end.  With at least one worker, the pool
    can be drained, so that the script gets to its report, exactly when
    the call of every value of the sweep ends.  When they all end, a
    sweep that is not finished can always go on, whatever was done
    before; when the call of one value never ends, the pool is never
    drained.  In both cases each move reduces the work left by one, so
    that the pool makes at most twice as many moves as there are values,
    and exactly that many when it is drained. *)
Theorem sweep_ends_iff_calls_end (call : Z -> option (result Z))
  (max_workers : nat) (values : list Z) :
  (1 <= max_workers)%nat ->
  ((exists s, pool_moves call max_workers (submitted values) s /\ drained s)
   <-> forall v, In v values -> call v <> None)
  /\ ((forall v, In v values -> call v <> None) ->
      forall s, pool_moves call max_workers (submitted values) s ->
                ~ drained s ->
                exists s', pool_move call max_workers s s')
  /\ (forall v, In v values -> call v = None ->
      forall s, pool_moves call max_workers (submitted values) s ->
                ~ drained s)
  /\ (forall k s,
        pool_moves_steps call max_workers k (submitted values) s ->
        (k <= 2 * List.length values)%nat
        /\ (drained s <-> k = (2 * List.length values)%nat)).
Proof.
  intros Hn.
  assert (A0 : (forall v, In v values -> call v <> None) ->
               all_end call max_workers (submitted values)).
  { intros H. split; [simpl; lia|]. cbn [submitted queue running].
    intros v I. rewrite app_nil_r in I. exact (H v I). }
  assert (St : forall v, In v values -> call v = None ->
               forall s, pool_moves call max_workers (submitted values) s ->
                         ~ drained s).
  { intros v I N s R [Q Rn].
    assert (I0 : In v (queue (submitted values)
                       ++ running (submitted values)))
      by (cbn [submitted queue running]; rewrite app_nil_r; exact I).
    pose proof (moves_keep_stalled call max_workers v _ _ N R I0) as I'.
    rewrite Q, Rn in I'. exact I'. }
  split; [split|split; [|split]].
  - intros (s & R & D) v I N. exact (St v I N s R D).
  - intros H.
    exact (all_end_drains call max_workers _ (submitted values) Hn eq_refl
             (A0 H)).
  - intros H s R Nd.
    exact (all_end_moves call max_workers s Hn
             (moves_all_end call max_workers _ s R (A0 H)) Nd).
  - exact St.
  - intros k s R.
    pose proof (moves_steps_work call max_workers k _ _ R) as W.
    unfold work_left in W. cbn [submitted queue running] in W. simpl in W.
    split; [lia|]. split.
    + intros [Q Rn]. rewrite Q, Rn in W. simpl in W. lia.
    + intros ->. unfold drained.
      destruct (queue s), (running s); simpl in W; try lia.
      split; reflexivity.
Qed.

Lemma sweep_ends_iff_calls_end_witness :
  ~ drained {| queue := [7]; running := [5]; points := [] |}.
Proof.
  refine (proj1 (proj2 (proj2 (sweep_ends_iff_calls_end stalls_on_5 1
                                 [5; 7] _)))
            5 _ eq_refl {| queue := [7]; running := [5]; points := [] |} _).
  - lia.
  - simpl. tauto.
  - eapply moves_step; [apply move_take; simpl; lia|]. apply moves_done.
Defined.

(** X14 (what is recorded at any moment).  At every moment of a sweep of
    distinct values, each point recorded so far is the driver's result for
    a value of the sweep, and no value has two points. *)
Theorem recorded_points_sound (driver : Z -> result Z) (max_workers : nat)
  (values : list Z) (s : pool) :
  NoDup values ->
  pool_run driver max_workers (submitted values) s ->
  (forall v r, In (v, r) (points s) -> In v values /\ driver v = ok r)
  /\ NoDup (map fst (points s)).
Proof.
  intros N R.
  assert (A : accounted driver values s).
  { apply (run_accounted driver max_workers values _ _ R). unfold accounted.
    cbn [submitted points running queue]. reflexivity. }
  unfold accounted in A. split.
  - intros v r I. apply (collected_member driver values).
    apply (Permutation_in _ A). apply in_or_app. left. exact I.
  - pose proof (collected_nodup driver values N) as C.
    apply (Permutation_NoDup (Permutation_sym (Permutation_map fst A))) in C.
    rewrite map_app in C. exact (NoDup_app_remove_r _ _ C).
Qed.

Lemma recorded_points_sound_witness :
  (forall v r,
      In (v, r) (points {| queue := [3]; running := [2];
                           points := [(1, 2)] |}) ->
      In v [1; 2; 3] /\ doubling v = ok r)
  /\ NoDup (map fst (points {| queue := [3]; running := [2];
                              points := [(1, 2)] |})).
Proof.
  apply (recorded_points_sound doubling 2 [1; 2; 3]).
  - repeat constructor; simpl; intuition lia.
  - eapply run_step; [apply step_take; simpl; lia|].
    eapply run_step; [apply step_take; simpl; lia|].
    eapply run_step; [apply (step_finish doubling 2 1 [3] [2] [] [])|].
    apply run_done.
Defined.

(** ** More on reporting *)

Lemma ascending_strict (l : list (Z * Z)) :
  ascending l -> NoDup (map fst l) -> strictly_ascending l.
Proof.
  unfold ascending, strictly_ascending. intros S.
  assert (T : StronglySorted (fun p q : Z * Z => fst p <= fst q) l).
  { apply Sorted_StronglySorted; [|exact S]. intros x y z. lia. }
  clear S. induction T as [|a l T IH F]; intros N; [constructor|].
  simpl in N. inversion N as [|? ? Na Nl]; subst.
  constructor; [apply IH, Nl|].
  rewrite Forall_forall in *. intros q I. specialize (F q I).
  assert (fst a <> fst q); [|lia].
  intros E. apply Na. rewrite E. now apply in_map.
Qed.

Lemma strictly_ascending_unique (l1 l2 : list (Z * Z)) :
  strictly_ascending l1 -> strictly_ascending l2 ->
  Permutation l1 l2 -> l1 = l2.
Proof.
  unfold strictly_ascending. intros S1. revert l2.
  induction S1 as [|a l1 S1 IH F1]; intros l2 S2 P.
  - apply Permutation_nil in P. now subst.
  - destruct S2 as [|b l2 S2 F2].
    + apply Permutation_sym, Permutation_nil in P. discriminate P.
    + assert (E : a = b).
      { assert (Ia : In a (b :: l2))
          by (apply (Permutation_in _ P); left; reflexivity).
        assert (Ib : In b (a :: l1))
          by (apply (Permutation_in _ (Permutation_sym P)); left;
              reflexivity).
        destruct Ia as [<-|Ia]; [reflexivity|].
        destruct Ib as [<-|Ib]; [reflexivity|].
        rewrite Forall_forall in F1, F2.
        specialize (F1 b Ib). specialize (F2 a Ia). lia. }
      subst b. f_equal. apply IH; [exact S2|].
      exact (Permutation_cons_inv P).
Qed.

Lemma sorted_ascending_fixed (l : list (Z * Z)) :
  ascending l -> sorted_by_input l = l.
Proof.
  unfold ascending. induction 1 as [|a l S IH H]; [reflexivity|].
  simpl. rewrite IH. destruct H as [|b l H]; [reflexivity|].
  simpl. destruct (Z.leb_spec (fst a) (fst b)); [reflexivity | lia].
Qed.

(** X15 (what is printed does not depend on the schedule).  For a given
    range and driver, the list the script prints is the same list, point
    for point and in the same order, for every pool size and every
    schedule of the calls. *)
Theorem printed_schedule_independent (driver : Z -> result Z)
  (lo hi st : Z) (values : list Z) (n m : nat) (s s' : pool) :
  range lo hi st = ok values ->
  sweeps driver n values s ->
  sweeps driver m values s' ->
  printed (report (points s)) = printed (report (points s')).
Proof.
  intros R S S'.
  pose proof (sweep_points driver n values s S) as P.
  pose proof (sweep_points driver m values s' S') as P'.
  pose proof (collected_nodup driver values (range_nodup lo hi st values R))
    as N.
  cbn [report printed].
  apply strictly_ascending_unique.
  - apply ascending_strict; [apply sorted_by_input_ascending|].
    apply (Permutation_NoDup (l := map fst (collected driver values)));
      [|exact N].
    apply Permutation_map. rewrite sorted_by_input_perm. now symmetry.
  - apply ascending_strict; [apply sorted_by_input_ascending|].
    apply (Permutation_NoDup (l := map fst (collected driver values)));
      [|exact N].
    apply Permutation_map. rewrite sorted_by_input_perm. now symmetry.
  - rewrite !sorted_by_input_perm, P. now symmetry.
Qed.

Lemma printed_schedule_independent_witness :
  printed (report [(0, 0); (2, 4); (4, 8)])
  = printed (report [(4, 8); (2, 4); (0, 0)]).
Proof.
  refine (printed_schedule_independent doubling 0 5 2 [0; 2; 4] 1 8
            {| queue := []; running := [];
               points := [(0, 0); (2, 4); (4, 8)] |}
            {| queue := []; running := [];
               points := [(4, 8); (2, 4); (0, 0)] |} eq_refl _ _).
  - apply (sweep_completes doubling 1 [0; 2; 4]). lia.
  - split; [|split; reflexivity].
    eapply run_step; [apply step_take; simpl; lia|].
    eapply run_step; [apply step_take; simpl; lia|].
    eapply run_step; [apply step_take; simpl; lia|].
    eapply run_step; [apply (step_finish doubling 8 4 [] [] [2; 0] [])|].
    eapply run_step; [apply (step_finish doubling 8 2 [] [] [0] [(4, 8)])|].
    eapply run_step;
      [apply (step_finish doubling 8 0 [] [] [] [(4, 8); (2, 4)])|].
    apply run_done.
Defined.

(** X16 (when the plot step fails).  After a sweep, handing the points to
    the plot raises [TypeError] exactly when no call of the sweep
    returned, in particular when the range is empty; otherwise the plot
    receives the recorded inputs and outputs. *)
Theorem plot_fails_without_points (driver : Z -> result Z) (n : nat)
  (values : list Z) (s : pool) :
  sweeps driver n values s ->
  (plotted (report (points s)) = raise TypeError
   <-> forall v, In v values -> exists e, driver v = raise e)
  /\ (values = [] -> plotted (report (points s)) = raise TypeError)
  /\ (points s <> [] ->
      plotted (report (points s))
      = ok (map fst (points s), map snd (points s))).
Proof.
  intros S. pose proof (sweep_points driver n values s S) as P.
  assert (Z0 : plotted (report (points s)) = raise TypeError
               <-> points s = []).
  { cbn [report plotted]. destruct (points s); simpl;
      split; intros H; try reflexivity; discriminate H. }
  assert (A : points s = []
              <-> forall v, In v values -> exists e, driver v = raise e).
  { split.
    - intros E v I. destruct (driver v) as [e|r] eqn:D; [eauto|].
      pose proof (collected_In driver values v r I D) as C.
      apply (Permutation_in _ (Permutation_sym P)) in C.
      rewrite E in C. destruct C.
    - intros F. destruct (points s) as [|[v r] l] eqn:E; [reflexivity|].
      assert (I : In (v, r) (collected driver values))
        by (apply (Permutation_in _ P); left; reflexivity).
      apply collected_member in I. destruct I as [I D].
      destruct (F v I) as [e D']. rewrite D in D'. discriminate D'. }
  split; [rewrite Z0; exact A|]. split.
  - intros ->. apply Z0. apply A. intros v [].
  - intros N. cbn [report plotted]. destruct (points s); [contradiction|].
    reflexivity.
Qed.

Lemma plot_fails_without_points_witness :
  plotted (report (points {| queue := []; running := []; points := [] |}))
  = raise TypeError.
Proof.
  refine (proj1 (proj2 (plot_fails_without_points doubling 3 []
            {| queue := []; running := []; points := [] |} _)) eq_refl).
  split; [apply run_done | split; reflexivity].
Defined.

Lemma sequential_collected (driver : Z -> result Z) (values : list Z) :
  sequential driver values = collected driver values.
Proof.
  unfold sequential.
  assert (G : forall l p, fold_left (fun p v => worker driver v p) l p
                          = p ++ collected driver l).
  { induction l as [|v l IH]; intros p; simpl fold_left.
    - now rewrite app_nil_r.
    - rewrite IH, worker_app, (collected_cons driver v l).
      now rewrite app_assoc. }
  apply (G values []).
Qed.

Lemma collected_increasing (driver : Z -> result Z) (values : list Z) :
  StronglySorted Z.lt values -> strictly_ascending (collected driver values).
Proof.
  unfold strictly_ascending.
  induction 1 as [|a l S IH F]; [constructor|].
  rewrite collected_cons. unfold collected at 1. simpl flat_map.
  destruct (driver a) as [e|r]; simpl; [exact IH|].
  constructor; [exact IH|].
  rewrite Forall_forall in *. intros [v y] I.
  apply collected_member in I. simpl. exact (F v (proj1 I)).
Qed.

Lemma collected_decreasing (driver : Z -> result Z) (values : list Z) :
  StronglySorted Z.gt values ->
  StronglySorted (fun p q : Z * Z => fst q < fst p) (collected driver values).
Proof.
  induction 1 as [|a l S IH F]; [constructor|].
  rewrite collected_cons. unfold collected at 1. simpl flat_map.
  destruct (driver a) as [e|r]; simpl; [exact IH|].
  constructor; [exact IH|].
  rewrite Forall_forall in *. intros [v y] I.
  apply collected_member in I. simpl. specialize (F v (proj1 I)). lia.
Qed.

Lemma strongly_sorted_snoc {A : Type} (R : A -> A -> Prop) (l : list A)
  (a : A) :
  StronglySorted R l -> Forall (fun x => R x a) l ->
  StronglySorted R (l ++ [a]).
Proof.
  induction 1 as [|b l S IH F]; intros H; simpl.
  - repeat constructor.
  - inversion H as [|? ? Hb Hl]; subst.
    constructor; [apply IH, Hl|].
    apply Forall_app. split; [exact F | repeat constructor; exact Hb].
Qed.

Lemma strongly_sorted_rev {A : Type} (R : A -> A -> Prop) (l : list A) :
  StronglySorted R l -> StronglySorted (fun x y => R y x) (rev l).
Proof.
  induction 1 as [|a l S IH F]; simpl; [constructor|].
  apply strongly_sorted_snoc; [exact IH|].
  apply Forall_rev. exact F.
Qed.

Lemma strictly_is_ascending (l : list (Z * Z)) :
  strictly_ascending l -> ascending l.
Proof.
  unfold strictly_ascending, ascending.
  induction 1 as [|a l S IH F]; constructor; [exact IH|].
  destruct l as [|b l]; constructor.
  inversion F; subst. lia.
Qed.

(** X17 (one worker keeps the order of the range).  On a single worker
    the points are stored in the order of the range: for a positive step
    the stored list is already sorted and is the very list printed; for a
    negative step the list printed is the stored list reversed. *)
Theorem single_worker_order (driver : Z -> result Z) (lo hi st : Z)
  (values : list Z) (s : pool) :
  range lo hi st = ok values ->
  sweeps driver 1 values s ->
  points s = collected driver values
  /\ (0 < st -> printed (report (points s)) = points s)
  /\ (st < 0 -> printed (report (points s)) = rev (points s)).
Proof.
  intros R S.
  assert (E : points s = collected driver values)
    by (rewrite <- sequential_collected; apply single_worker_points, S).
  destruct (Z.eq_dec st 0) as [->|N]; [discriminate R|].
  rewrite range_progression in R by exact N. injection R as <-.
  split; [exact E|]. cbn [report printed]. rewrite E. split; intros H.
  - apply sorted_ascending_fixed.
    pose proof (progression_increasing lo st 0
                  (Z.to_nat (range_len lo hi st)) H) as PI.
    pose proof (collected_increasing driver _ PI) as C.
    exact (strictly_is_ascending _ C).
  - apply strictly_ascending_unique.
    + apply ascending_strict; [apply sorted_by_input_ascending|].
      apply (Permutation_NoDup
               (l := map fst (collected driver
                                (progression lo st 0
                                   (Z.to_nat (range_len lo hi st))))));
        [apply Permutation_map; symmetry; apply sorted_by_input_perm|].
      apply collected_nodup, decreasing_nodup, progression_decreasing, H.
    + apply (strongly_sorted_rev (fun p q : Z * Z => fst q < fst p)).
      apply collected_decreasing, progression_decreasing, H.
    + rewrite sorted_by_input_perm. apply Permutation_rev.
Qed.

Lemma single_worker_order_witness :
  points {| queue := []; running := [];
            points := sequential doubling [9; 6; 3] |}
  = collected doubling [9; 6; 3]
  /\ (0 < -3 ->
      printed (report (points {| queue := []; running := [];
                                 points := sequential doubling [9; 6; 3] |}))
      = points {| queue := []; running := [];
                  points := sequential doubling [9; 6; 3] |})
  /\ (-3 < 0 ->
      printed (report (points {| queue := []; running := [];
                                 points := sequential doubling [9; 6; 3] |}))
      = rev (points {| queue := []; running := [];
                       points := sequential doubling [9; 6; 3] |})).
Proof.
  apply (single_worker_order doubling 9 0 (-3) [9; 6; 3]).
  - reflexivity.
  - apply sweep_completes. lia.
Defined.

(** ** The command line as a whole *)

Lemma parse_range_raises (r : string) (e : exn) :
  parse_range r = raise e -> e = IndexError \/ e = ValueError.
Proof.
  assert (I : forall b s x, PyStr.int b s = raise x -> x = ValueError).
  { intros b s x. unfold PyStr.int.
    destruct (match PyStr.int_trim s with
              | String "+" r0 => (false, r0)
              | String "-" r0 => (true, r0)
              | _ => (false, PyStr.int_trim s)
              end) as [neg s2].
    destruct (PyStr.digits b (if b =? 16 then PyStr.skip_hex_prefix s2 else s2));
      intros H; [discriminate H | injection H as <-; reflexivity]. }
  assert (L : forall (l : list string) i x,
             PyStr.list_item l i = raise x -> x = IndexError).
  { intros l i x. unfold PyStr.list_item.
    destruct (nth_error l i); intros H;
      [discriminate H | injection H as <-; reflexivity]. }
  unfold parse_range.
  destruct (PyStr.list_item (PyStr.split "," r) 0) as [x|v0] eqn:E0;
    cbn [bind]; [intros H; injection H as <-; left; exact (L _ _ _ E0)|].
  destruct (PyStr.list_item (PyStr.split "[" v0) 1) as [x|t] eqn:E1;
    cbn [bind]; [intros H; injection H as <-; left; exact (L _ _ _ E1)|].
  destruct (PyStr.int 10 t) as [x|lb] eqn:E2;
    cbn [bind]; [intros H; injection H as <-; right; exact (I _ _ _ E2)|].
  destruct (PyStr.list_item (PyStr.split "," r) 1) as [x|u] eqn:E3;
    cbn [bind]; [intros H; injection H as <-; left; exact (L _ _ _ E3)|].
  destruct (if PyStr.contains "]" u
            then PyStr.int 10 (PyStr.slice u None (Some (-1)))
            else PyStr.int 10 u) as [x|ub] eqn:E4;
    cbn [bind];
    [intros H; injection H as <-; right;
     destruct (PyStr.contains "]" u); exact (I _ _ _ E4)|].
  destruct (Nat.eqb (List.length (PyStr.split "," r)) 3).
  - destruct (PyStr.list_item (PyStr.split "," r) 2) as [x|w] eqn:E5;
      cbn [bind]; [intros H; injection H as <-; left; exact (L _ _ _ E5)|].
    destruct (PyStr.int 10 (PyStr.slice w None (Some (-1)))) as [x|sv] eqn:E6;
      cbn [bind]; [intros H; injection H as <-; right; exact (I _ _ _ E6)|].
    discriminate.
  - cbn [bind ok]. discriminate.
Qed.

Lemma int_raises (b : Z) (s : string) (e : exn) :
  PyStr.int b s = raise e -> e = ValueError.
Proof.
  unfold PyStr.int.
  destruct (match PyStr.int_trim s with
            | String "+" r0 => (false, r0)
            | String "-" r0 => (true, r0)
            | _ => (false, PyStr.int_trim s)
            end) as [neg s2].
  destruct (PyStr.digits b (if b =? 16 then PyStr.skip_hex_prefix s2 else s2));
    intros H; [discriminate H | injection H as <-; reflexivity].
Qed.

Lemma int_of_raises (b : Z) (x : option string) (e : exn) :
  PyStr.int_of b x = raise e ->
  (e = TypeError /\ x = None)
  \/ (e = ValueError /\ exists s, x = Some s /\ PyStr.int b s = raise e).
Proof.
  destruct x as [s|]; cbn [PyStr.int_of]; intros H.
  - right. split; [exact (int_raises b s e H)|]. exists s. auto.
  - left. injection H as <-. auto.
Qed.

Lemma parse_args_failure (a : Args) (e : exn) :
  parse_args a = raise e
  <-> parse_range (arg_range a) = raise e
      \/ ((exists v, parse_range (arg_range a) = ok v)
          /\ PyStr.int_of 10 (arg_threads a) = raise e).
Proof.
  unfold parse_args.
  destruct (parse_descriptor_total (arg_input a)) as [[im i] ->].
  destruct (parse_descriptor_total (arg_output a)) as [[om o] ->].
  cbn [bind ok].
  destruct (parse_range (arg_range a)) as [x|[[lb ub] st]] eqn:R;
    cbn [bind].
  - split; [intros H; injection H as <-; now left|].
    intros [H|[[v H] _]]; [injection H as <-; reflexivity | discriminate H].
  - destruct (PyStr.int_of 10 (arg_threads a)) as [x|th] eqn:T;
      cbn [bind].
    + split; [intros H; injection H as <-; right;
              split; [eexists|]; reflexivity|].
      intros [H|[_ H]]; [discriminate H | injection H as <-; reflexivity].
    + split; [discriminate|].
      intros [H|[_ H]]; discriminate H.
Qed.

Lemma parse_args_raises (a : Args) (e : exn) :
  parse_args a = raise e ->
  e = IndexError \/ e = ValueError \/ e = TypeError.
Proof.
  intros H. apply parse_args_failure in H. destruct H as [H|[_ H]].
  - destruct (parse_range_raises _ _ H); auto.
  - destruct (int_of_raises _ _ _ H) as [[-> _]|[-> _]]; auto.
Qed.

Lemma parse_args_type_error (a : Args) :
  parse_args a = raise TypeError
  <-> (exists v, parse_range (arg_range a) = ok v)
      /\ arg_threads a = None.
Proof.
  rewrite parse_args_failure. split.
  - intros [H|[V H]].
    + destruct (parse_range_raises _ _ H); discriminate.
    + split; [exact V|].
      destruct (int_of_raises _ _ _ H) as [[_ N]|[D _]];
        [exact N | discriminate D].
  - intros [V N]. right. split; [exact V|]. rewrite N. reflexivity.
Qed.

(** X18 (what can make the command line fail).  Reading the command line
    never fails on account of the input and output descriptors.  It
    raises exactly when the range text cannot be read, with the exception
    of the range, or when the range can be read and the thread count
    cannot, with the exception of the thread count.  What it raises is
    [IndexError], [ValueError] or [TypeError], and [TypeError] exactly
    when the range can be read and the thread option was given without a
    value.  When both can be read it succeeds with the bounds, step and
    thread count read and with each descriptor classified as
    [parse_location] classifies it. *)
Theorem command_line_failures (a : Args) :
  (forall e, parse_args a = raise e
             <-> parse_range (arg_range a) = raise e
                 \/ ((exists v, parse_range (arg_range a) = ok v)
                     /\ PyStr.int_of 10 (arg_threads a) = raise e))
  /\ (forall e, parse_args a = raise e ->
                e = IndexError \/ e = ValueError \/ e = TypeError)
  /\ (parse_args a = raise TypeError
      <-> (exists v, parse_range (arg_range a) = ok v)
          /\ arg_threads a = None)
  /\ (forall lb ub st th,
        parse_range (arg_range a) = ok (lb, ub, st) ->
        PyStr.int_of 10 (arg_threads a) = ok th ->
        exists g,
          parse_args a = ok g
          /\ lower_bound g = lb /\ upper_bound g = ub /\ step g = st
          /\ threads g = th
          /\ parse_location (arg_input a)
             = ok (location_of (bruteforceIsMem g, bruteforce g))
          /\ parse_location (arg_output a)
             = ok (location_of (outputIsMem g, output g))).
Proof.
  split; [apply parse_args_failure|].
  split; [apply parse_args_raises|].
  split; [apply parse_args_type_error|].
  intros lb ub st th R T. unfold parse_args, parse_location.
  destruct (parse_descriptor_total (arg_input a)) as [[im i] ->].
  destruct (parse_descriptor_total (arg_output a)) as [[om o] ->].
  rewrite R, T. cbn [bind ok].
  eexists. split; [reflexivity|]. cbn. repeat split; reflexivity.
Qed.

Lemma command_line_failures_witness :
  exists g,
    parse_args sample_args = ok g
    /\ lower_bound g = 0 /\ upper_bound g = 10 /\ step g = 2
    /\ threads g = 5
    /\ parse_location (arg_input sample_args)
       = ok (location_of (bruteforceIsMem g, bruteforce g))
    /\ parse_location (arg_output sample_args)
       = ok (location_of (outputIsMem g, output g)).
Proof.
  exact (proj2 (proj2 (proj2 (command_line_failures sample_args)))
           0 10 2 5 eq_refl eq_refl).
Defined.

(** ** The script as a whole *)

Lemma startup_parse_failure (a : Args) (e : exn) :
  parse_args a = raise e -> startup a = raise e.
Proof. intros H. unfold startup. rewrite H. reflexivity. Qed.

Lemma startup_later_failure (a : Args) (g : Globals) (e : exn) :
  parse_args a = ok g -> startup a = raise e -> e = ValueError.
Proof.
  intros P H. unfold startup in H. rewrite P in H. unfold range in H.
  cbv beta iota delta [bind ok raise] in H.
  destruct (threads g <=? 0); cbv beta iota delta [bind ok raise] in H;
    [injection H as <-; reflexivity|].
  destruct (step g =? 0); cbv beta iota delta [bind ok raise] in H;
    [injection H as <-; reflexivity | discriminate H].
Qed.

(** X19 (what stops the script before the sweep).  Before the first call
    the script can only die of [IndexError], [ValueError] or [TypeError],
    and of [TypeError] exactly when the range can be read and the thread
    option was given without a value; once the command line is read, it
    dies, with [ValueError], exactly when the thread count is not
    positive or the step is zero, and otherwise goes on to sweep the
    values of the range. *)
Theorem startup_failures (a : Args) :
  (forall e, startup a = raise e ->
             e = IndexError \/ e = ValueError \/ e = TypeError)
  /\ (startup a = raise TypeError
      <-> (exists v, parse_range (arg_range a) = ok v)
          /\ arg_threads a = None)
  /\ (forall g, parse_args a = ok g ->
        (startup a = raise ValueError <-> threads g <= 0 \/ step g = 0)
        /\ (0 < threads g -> step g <> 0 ->
            exists values,
              startup a = ok (g, values)
              /\ range (lower_bound g) (upper_bound g) (step g) = ok values)).
Proof.
  split; [|split].
  - intros e H. destruct (parse_args a) as [x|g] eqn:P.
    + rewrite (startup_parse_failure a x P) in H. unfold raise in H.
      injection H as <-. exact (parse_args_raises a x P).
    + right. left. exact (startup_later_failure a g e P H).
  - rewrite <- parse_args_type_error. split.
    + intros H. destruct (parse_args a) as [x|g] eqn:P.
      * rewrite (startup_parse_failure a x P) in H. unfold raise in H.
        injection H as ->. reflexivity.
      * discriminate (startup_later_failure a g TypeError P H).
    + apply startup_parse_failure.
  - intros g P. unfold startup. rewrite P. unfold range.
    cbv beta iota delta [bind ok raise].
    destruct (Z.leb_spec (threads g) 0) as [T|T];
      destruct (Z.eqb_spec (step g) 0) as [S|S];
      cbv beta iota delta [bind ok raise].
    + split; [split; [intros _; now left | reflexivity] | intros; lia].
    + split; [split; [intros _; now left | reflexivity] | intros; lia].
    + split; [split; [intros _; now right | reflexivity]|].
      intros _ N. contradiction.
    + split; [split; [discriminate | intros [?|?]; [lia | contradiction]]|].
      intros _ _. eexists. split; reflexivity.
Qed.

Lemma startup_failures_witness :
  exists values,
    startup sample_args = ok (sample_registers_parsed, values)
    /\ range (lower_bound sample_registers_parsed)
         (upper_bound sample_registers_parsed)
         (step sample_registers_parsed) = ok values.
Proof.
  refine (proj2 (proj2 (proj2 (startup_failures sample_args))
                   sample_registers_parsed eq_refl) _ _);
    [reflexivity | discriminate].
Defined.

(** X20 (what the script prints).  When the script gets past its start,
    the sweep completes whatever the schedule, and the list printed is
    always the same: the points of the values of the range on which the
    call returns, in ascending order of input. *)
Theorem program_output (a : Args) (d : debugger) (g : Globals)
  (values : list Z) :
  startup a = ok (g, values) ->
  (exists out, prints a d out)
  /\ (forall out, prints a d out ->
        out = sorted_by_input (collected (run_driver g d) values))
  /\ ascending (sorted_by_input (collected (run_driver g d) values))
  /\ (forall v r, In (v, r) (sorted_by_input (collected (run_driver g d) values))
                  <-> In v values /\ run_driver g d v = ok r).
Proof.
  intros St.
  assert (T : 0 < threads g
              /\ range (lower_bound g) (upper_bound g) (step g) = ok values).
  { unfold startup in St.
    destruct (parse_args a) as [x|g'] eqn:P; cbn [bind] in St;
      [discriminate St|].
    destruct (Z.leb_spec (threads g') 0); cbn [bind ok raise] in St;
      [discriminate St|].
    destruct (range (lower_bound g') (upper_bound g') (step g'))
      as [x|vs] eqn:R; cbn [bind ok] in St; [discriminate St|].
    injection St as -> ->. split; assumption. }
  destruct T as [T R].
  split; [|split; [|split]].
  - eexists. exists g, values. eexists. split; [exact St|].
    split; [|reflexivity]. apply sweep_completes. lia.
  - intros out (g' & values' & s & St' & S & ->).
    rewrite St in St'. injection St' as <- <-.
    pose proof (sweep_points _ _ _ _ S) as P.
    pose proof (collected_nodup (run_driver g d) values
                  (range_nodup _ _ _ _ R)) as N.
    cbn [report printed]. apply strictly_ascending_unique.
    + apply ascending_strict; [apply sorted_by_input_ascending|].
      apply (Permutation_NoDup
               (l := map fst (collected (run_driver g d) values)));
        [|exact N].
      apply Permutation_map. rewrite sorted_by_input_perm. now symmetry.
    + apply ascending_strict; [apply sorted_by_input_ascending|].
      apply (Permutation_NoDup
               (l := map fst (collected (run_driver g d) values)));
        [|exact N].
      apply Permutation_map. symmetry. apply sorted_by_input_perm.
    + now rewrite !sorted_by_input_perm.
  - apply sorted_by_input_ascending.
  - intros v r. split.
    + intros I. apply (collected_member (run_driver g d) values).
      exact (Permutation_in _ (sorted_by_input_perm _) I).
    + intros [I E].
      apply (Permutation_in _ (Permutation_sym (sorted_by_input_perm _))).
      now apply collected_In.
Qed.

Lemma program_output_witness :
  exists out, prints sample_args constant_debugger out.
Proof.
  refine (proj1 (program_output sample_args constant_debugger
                   sample_registers_parsed [0; 2; 4; 6; 8] eq_refl)).
Defined.
